(** * PulseGen video pipeline: a shallow embedding and its properties

    The development follows the server side of the repository:

    - [server/models/Video.js]            the MediaItem record;
    - [server/config/socket.js]           the progress broadcaster;
    - [server/services/videoProcessor.js] subprocess wrappers, the
      pipeline [processVideo] and the scheduler [ProcessingQueue];
    - [server/services/sensitivityAnalyzer.js] the content analyzer;
    - [server/routes/videos.js]           upload, listing, deletion,
      sharing and reprocess;
    - [server/routes/stream.js]           the byte-range media server,
      thumbnails and stream information;
    - [server/middleware/rbac.js]         roles and permissions;
    - [server/middleware/upload.js]       the removal of files.

    Asynchronous JavaScript is rendered by explicit state passing: a
    computation takes the world (record store, broadcaster, observation
    trace) and returns the new world together with a value or a thrown
    error.  Everything outside the program (the database being
    reachable, what ffprobe printed, which error the analyzer hit) is
    an input of the model. *)

From stdpp Require Import gmap strings list.
From Stdlib Require Import ZArith QArith Ascii DecimalString Lia.
From Stdlib Require DecimalZ.

Open Scope Z_scope.

(* ===================================================================== *)
(** * JavaScript values                                                  *)
(* ===================================================================== *)

(** The numbers the stream route computes with are results of
    [parseInt] and sums and differences of them: an integer or NaN.  They
    are kept exact, as JavaScript keeps them up to 2^53 - 1. *)
Inductive jsnum : Type :=
| NaN
| Int (z : Z).

(** [a >= b]: every comparison with NaN is false. *)
Definition js_ge (a b : jsnum) : bool :=
  match a, b with
  | Int x, Int y => y <=? x
  | _, _ => false
  end.

Definition js_sub (a b : jsnum) : jsnum :=
  match a, b with
  | Int x, Int y => Int (x - y)
  | _, _ => NaN
  end.

Definition js_add (a b : jsnum) : jsnum :=
  match a, b with
  | Int x, Int y => Int (x + y)
  | _, _ => NaN
  end.

(** Number to string, as a template literal or a header value does it. *)
Definition Z_to_string (z : Z) : string := NilZero.string_of_int (Z.to_int z).

Definition js_to_string (n : jsnum) : string :=
  match n with
  | NaN => "NaN"
  | Int z => Z_to_string z
  end.

(** A thrown [Error]: its [name] and its [message]. *)
Record JsError : Type := mkError { err_name : string; err_message : string }.

Definition Error (msg : string) : JsError := mkError "Error" msg.

(** ** Strings *)

(** [s.replace(/bytes=/, '')] : the first occurrence of the pattern, wherever
    it is, is removed. *)
Fixpoint drop_string (n : nat) (s : string) : string :=
  match n, s with
  | O, _ => s
  | S n', String _ s' => drop_string n' s'
  | S _, EmptyString => EmptyString
  end.

Fixpoint replace_first (pat s : string) : string :=
  if String.prefix pat s then drop_string (String.length pat) s
  else match s with
       | EmptyString => EmptyString
       | String c s' => String c (replace_first pat s')
       end.

(** [s.split('-')] : never empty, one more part than there are separators. *)
Fixpoint split (sep : Ascii.ascii) (s : string) : list string :=
  match s with
  | EmptyString => [EmptyString]
  | String c s' =>
      if Ascii.eqb c sep then EmptyString :: split sep s'
      else match split sep s' with
           | p :: ps => String c p :: ps
           | [] => [String c EmptyString]
           end
  end.

(** Whether a character occurs in a string. *)
Fixpoint contains (c : Ascii.ascii) (s : string) : bool :=
  match s with
  | EmptyString => false
  | String a s' => Ascii.eqb a c || contains c s'
  end.

(** A part of a split that may be missing ([undefined]) is truthy when it is
    there and not the empty string. *)
Definition truthy (o : option string) : bool :=
  match o with
  | Some (String _ _) => true
  | _ => false
  end.

(** [parseInt(s, 10)]: leading white space is skipped, then an optional
    sign, then the longest run of decimal digits; NaN when there is no
    digit.  What follows the digits is ignored. *)
Definition is_js_space (c : Ascii.ascii) : bool :=
  let n := Ascii.N_of_ascii c in
  ((9 <=? n) && (n <=? 13) || (n =? 32) || (n =? 160))%N.

Fixpoint skip_space (s : string) : string :=
  match s with
  | String c s' => if is_js_space c then skip_space s' else s
  | EmptyString => EmptyString
  end.

Definition digit_of (c : Ascii.ascii) : option Z :=
  let n := Ascii.N_of_ascii c in
  if ((48 <=? n) && (n <=? 57))%N then Some (Z.of_N n - 48) else None.

(** The digits read so far are in [acc]; [None] while no digit was read. *)
Fixpoint read_digits (acc : option Z) (s : string) : option Z :=
  match s with
  | String c s' =>
      match digit_of c with
      | Some d => read_digits (Some (10 * default 0 acc + d)) s'
      | None => acc
      end
  | EmptyString => acc
  end.

Definition parseInt (s : string) : jsnum :=
  let s1 := skip_space s in
  let '(neg, s2) :=
    match s1 with
    | String c r =>
        if Ascii.eqb c "-" then (true, r)
        else if Ascii.eqb c "+" then (false, r)
        else (false, s1)
    | EmptyString => (false, s1)
    end in
  match read_digits None s2 with
  | Some n => Int (if neg then - n else n)
  | None => NaN
  end.

(* ===================================================================== *)
(** * The MediaItem record ([server/models/Video.js])                    *)
(* ===================================================================== *)

Inductive Status : Type := pending | processing | completed | failed.

Inductive Stage : Type :=
| queued
| extracting_metadata
| generating_thumbnail
| analyzing_content
| finalizing
| done
| error.

Inductive Classification : Type := class_safe | class_flagged | class_pending.

#[global] Instance Status_eq_dec : EqDecision Status.
Proof. solve_decision. Defined.

#[global] Instance Stage_eq_dec : EqDecision Stage.
Proof. solve_decision. Defined.

#[global] Instance Classification_eq_dec : EqDecision Classification.
Proof. solve_decision. Defined.

Record FlagDetail : Type := mkFlagDetail {
  fd_category : string;
  fd_confidence : Z;
  fd_timestamp : Q
}.

(** The free-form [details] of a sensitivity result: the schema default
    [{}], the [{ error }] of a failed analysis, or what the mock analysis
    reports. *)
Inductive Details : Type :=
| details_default
| details_error (message : string)
| details_mock (framesAnalyzed processingTime : Z) (flagDetails : list FlagDetail).

Record SensitivityResult : Type := mkSensitivityResult {
  classification : Classification;
  confidence : Z;
  flags : list string;
  analyzedAt : option Z;
  details : Details
}.

(** [sensitivityResultSchema] with every default taken. *)
Definition default_sensitivityResult : SensitivityResult :=
  {| classification := class_pending; confidence := 0; flags := [];
     analyzedAt := None; details := details_default |}.

(** The fields of [videoSchema] that the pipeline, the scheduler and the
    routes below read or write.  The descriptive fields ([title],
    [description], [filename], [originalName], [organization], [tags]) are
    stored at upload and never read by this code; they are left out. *)
Record Video : Type := mkVideo {
  _id : string;
  mimetype : string;
  size : Z;
  filePath : string;
  owner : string;
  accessibleBy : list string;
  isPublic : bool;
  views : Z;
  status : Status;
  processingProgress : Z;
  processingStage : Stage;
  processingError : option string;
  duration : Q;
  resolution : Z * Z;
  metadata_codec : option string;
  metadata_bitrate : option Z;
  thumbnailPath : option string;
  sensitivityResult : SensitivityResult
}.

(** Field assignments [video.f = x]. *)
Definition set_status (x : Status) (v : Video) : Video :=
  mkVideo (_id v) (mimetype v) (size v) (filePath v) (owner v) (accessibleBy v)
    (isPublic v) (views v) x (processingProgress v) (processingStage v)
    (processingError v) (duration v) (resolution v) (metadata_codec v)
    (metadata_bitrate v) (thumbnailPath v) (sensitivityResult v).

Definition set_processingProgress (x : Z) (v : Video) : Video :=
  mkVideo (_id v) (mimetype v) (size v) (filePath v) (owner v) (accessibleBy v)
    (isPublic v) (views v) (status v) x (processingStage v)
    (processingError v) (duration v) (resolution v) (metadata_codec v)
    (metadata_bitrate v) (thumbnailPath v) (sensitivityResult v).

Definition set_processingStage (x : Stage) (v : Video) : Video :=
  mkVideo (_id v) (mimetype v) (size v) (filePath v) (owner v) (accessibleBy v)
    (isPublic v) (views v) (status v) (processingProgress v) x
    (processingError v) (duration v) (resolution v) (metadata_codec v)
    (metadata_bitrate v) (thumbnailPath v) (sensitivityResult v).

Definition set_processingError (x : option string) (v : Video) : Video :=
  mkVideo (_id v) (mimetype v) (size v) (filePath v) (owner v) (accessibleBy v)
    (isPublic v) (views v) (status v) (processingProgress v) (processingStage v)
    x (duration v) (resolution v) (metadata_codec v)
    (metadata_bitrate v) (thumbnailPath v) (sensitivityResult v).

Definition set_duration (x : Q) (v : Video) : Video :=
  mkVideo (_id v) (mimetype v) (size v) (filePath v) (owner v) (accessibleBy v)
    (isPublic v) (views v) (status v) (processingProgress v) (processingStage v)
    (processingError v) x (resolution v) (metadata_codec v)
    (metadata_bitrate v) (thumbnailPath v) (sensitivityResult v).

Definition set_resolution (x : Z * Z) (v : Video) : Video :=
  mkVideo (_id v) (mimetype v) (size v) (filePath v) (owner v) (accessibleBy v)
    (isPublic v) (views v) (status v) (processingProgress v) (processingStage v)
    (processingError v) (duration v) x (metadata_codec v)
    (metadata_bitrate v) (thumbnailPath v) (sensitivityResult v).

Definition set_metadata (codec : string) (bitrate : Z) (v : Video) : Video :=
  mkVideo (_id v) (mimetype v) (size v) (filePath v) (owner v) (accessibleBy v)
    (isPublic v) (views v) (status v) (processingProgress v) (processingStage v)
    (processingError v) (duration v) (resolution v) (Some codec)
    (Some bitrate) (thumbnailPath v) (sensitivityResult v).

Definition set_thumbnailPath (x : option string) (v : Video) : Video :=
  mkVideo (_id v) (mimetype v) (size v) (filePath v) (owner v) (accessibleBy v)
    (isPublic v) (views v) (status v) (processingProgress v) (processingStage v)
    (processingError v) (duration v) (resolution v) (metadata_codec v)
    (metadata_bitrate v) x (sensitivityResult v).

Definition set_sensitivityResult (x : SensitivityResult) (v : Video) : Video :=
  mkVideo (_id v) (mimetype v) (size v) (filePath v) (owner v) (accessibleBy v)
    (isPublic v) (views v) (status v) (processingProgress v) (processingStage v)
    (processingError v) (duration v) (resolution v) (metadata_codec v)
    (metadata_bitrate v) (thumbnailPath v) x.

Definition set_views (x : Z) (v : Video) : Video :=
  mkVideo (_id v) (mimetype v) (size v) (filePath v) (owner v) (accessibleBy v)
    (isPublic v) x (status v) (processingProgress v) (processingStage v)
    (processingError v) (duration v) (resolution v) (metadata_codec v)
    (metadata_bitrate v) (thumbnailPath v) (sensitivityResult v).

(** [videoSchema.methods.canAccess]. *)
Definition canAccess (v : Video) (userId userRole : string) : bool :=
  if bool_decide (userRole = "admin") then true
  else if bool_decide (owner v = userId) then true
  else if existsb (fun id => bool_decide (id = userId)) (accessibleBy v) then true
  else if isPublic v then true
  else false.

(* ===================================================================== *)
(** * The scheduler ([ProcessingQueue])                                  *)
(* ===================================================================== *)

(** The fields of the class, and two lists that describe its calls:
    [running] holds the calls [processVideo(id)] that [process] has started
    and is awaiting, oldest first; [started] logs every call
    [processVideo(id)] made so far, in order.  The field [processing] of the
    class is never read and is left out. *)
Record ProcessingQueue : Type := mkQueue {
  queue : list string;
  concurrency : Z;
  activeJobs : Z;
  running : list string;
  started : list string
}.

(** [new ProcessingQueue()]. *)
Definition new_ProcessingQueue : ProcessingQueue :=
  {| queue := []; concurrency := 2; activeJobs := 0; running := [];
     started := [] |}.

(** [process()] up to its [await]: at most one id is taken per call. *)
Definition process (q : ProcessingQueue) : ProcessingQueue :=
  if (concurrency q <=? activeJobs q) || (Z.of_nat (length (queue q)) =? 0) then q
  else match queue q with
       | videoId :: rest =>
           {| queue := rest; concurrency := concurrency q;
              activeJobs := activeJobs q + 1;
              running := running q ++ [videoId];
              started := started q ++ [videoId] |}
       | [] => q
       end.

(** [add(videoId)]. *)
Definition add (videoId : string) (q : ProcessingQueue) : ProcessingQueue :=
  process {| queue := queue q ++ [videoId]; concurrency := concurrency q;
             activeJobs := activeJobs q; running := running q;
             started := started q |}.

(** The awaited call number [i] settles; [finally] runs whether it was
    fulfilled or rejected.  Nothing happens when there is no such call. *)
Definition settle (i : nat) (fulfilled : bool) (q : ProcessingQueue) : ProcessingQueue :=
  match running q !! i with
  | Some _ =>
      process {| queue := queue q; concurrency := concurrency q;
                 activeJobs := activeJobs q - 1;
                 running := take i (running q) ++ drop (S i) (running q);
                 started := started q |}
  | None => q
  end.

(** What can happen to the scheduler, and a whole history of it. *)
Inductive QueueEvent : Type :=
| submitted (videoId : string)
| settled (i : nat) (fulfilled : bool).

Definition queue_step (q : ProcessingQueue) (e : QueueEvent) : ProcessingQueue :=
  match e with
  | submitted videoId => add videoId q
  | settled i fulfilled => settle i fulfilled q
  end.

Definition queue_run (es : list QueueEvent) (q : ProcessingQueue) : ProcessingQueue :=
  fold_left queue_step es q.

(* ===================================================================== *)
(** * The world: record store, broadcaster, observations                 *)
(* ===================================================================== *)

(** A progress event as [emitVideoProgress] sends it on
    ['video:processing:progress'].  The pipeline sends all its events this
    way, the final ones included: the last event of a successful run
    carries [sensitivityResult], the event of a failed run carries
    [error: true]; [emitVideoComplete] and [emitVideoError] are never
    called. *)
Record ProgressEvent : Type := mkEvent {
  ev_videoId : string;
  ev_status : Status;
  ev_stage : Stage;
  ev_progress : Z;
  ev_message : string;
  ev_error : bool;
  ev_sensitivityResult : option SensitivityResult
}.

(** What a run leaves behind, in order: a version of a record written to
    the store, or an event handed to the broadcaster. *)
Inductive Obs : Type :=
| Persisted (v : Video)
| Emitted (e : ProgressEvent).

(** [store] is the collection of Video documents by id.  [faults] scripts
    the store's availability: the call number [n] to the store fails with
    the error [faults n] when there is one, and is answered otherwise;
    [calls] counts the calls made so far.  [io] tells whether
    [initializeSocket] has run.  [processingQueue] is the one scheduler of
    the process. *)
Record World : Type := mkWorld {
  store : gmap string Video;
  faults : nat -> option JsError;
  calls : nat;
  io : bool;
  trace : list Obs;
  processingQueue : ProcessingQueue
}.

Inductive Result (A : Type) : Type :=
| Ok (a : A)
| Throw (e : JsError).
Arguments Ok {A} a.
Arguments Throw {A} e.

Definition M (A : Type) : Type := World -> World * Result A.

Definition ret {A} (a : A) : M A := fun w => (w, Ok a).

Definition throw {A} (e : JsError) : M A := fun w => (w, Throw e).

Definition bind {A B} (c : M A) (k : A -> M B) : M B :=
  fun w =>
    match c w with
    | (w', Ok a) => k a w'
    | (w', Throw e) => (w', Throw e)
    end.

(** A call that does not touch the world. *)
Definition lift {A} (r : Result A) : M A := fun w => (w, r).

(** [try { body } catch (e) { handler }]. *)
Definition try_catch {A} (body : M A) (handler : JsError -> M A) : M A :=
  fun w =>
    match body w with
    | (w', Ok a) => (w', Ok a)
    | (w', Throw e) => handler e w'
    end.

Notation "x <- c1 ;; c2" := (bind c1 (fun x => c2))
  (at level 100, c1 at next level, right associativity).
Notation "c1 ;;; c2" := (bind c1 (fun _ => c2))
  (at level 100, right associativity).

Definition observe (o : Obs) (w : World) : World :=
  mkWorld (store w) (faults w) (calls w) (io w) (trace w ++ [o])
    (processingQueue w).

(** One round trip to the store: consult the script. *)
Definition store_call : M unit :=
  fun w =>
    let w' := mkWorld (store w) (faults w) (S (calls w)) (io w) (trace w)
                (processingQueue w) in
    match faults w (calls w) with
    | Some e => (w', Throw e)
    | None => (w', Ok tt)
    end.

Definition write (v : Video) : M unit :=
  fun w =>
    (observe (Persisted v)
       (mkWorld (<[_id v := v]> (store w)) (faults w) (calls w) (io w) (trace w)
          (processingQueue w)), Ok tt).

(** [Video.findById(id)]: the document or [null]. *)
Definition findById (id : string) : M (option Video) :=
  store_call ;;; (fun w => (w, Ok (store w !! id))).

(** [video.save()].  Within one run nothing else writes the document, so
    saving the changed paths amounts to writing the document held in
    memory. *)
Definition save (v : Video) : M unit :=
  store_call ;;; write v.

(** [Video.findByIdAndUpdate(id, update)]: applies the update to the stored
    document when there is one, and does nothing otherwise. *)
Definition findByIdAndUpdate (id : string) (update : Video -> Video) : M unit :=
  store_call ;;;
  (fun w =>
     match store w !! id with
     | Some v => write (update v) w
     | None => (w, Ok tt)
     end).

(** [processingQueue.add(videoId)]. *)
Definition queue_add (videoId : string) : M unit :=
  fun w =>
    (mkWorld (store w) (faults w) (calls w) (io w) (trace w)
       (add videoId (processingQueue w)), Ok tt).

(** [emitVideoProgress(videoId, data)] ([server/config/socket.js]): the
    event goes out only when the socket server exists. *)
Definition emitVideoProgress (e : ProgressEvent) : M unit :=
  fun w => if io w then (observe (Emitted e) w, Ok tt) else (w, Ok tt).

(* ===================================================================== *)
(** * Subprocess wrappers ([server/services/videoProcessor.js])          *)
(* ===================================================================== *)

Record Metadata : Type := mkMetadata {
  md_duration : Q;
  md_width : Z;
  md_height : Z;
  md_codec : string;
  md_bitrate : Z
}.

(** The object both failure branches of [extractMetadata] resolve with. *)
Definition default_metadata : Metadata :=
  {| md_duration := 0%Q; md_width := 0; md_height := 0;
     md_codec := "unknown"; md_bitrate := 0 |}.

(** What [JSON.parse(output)] yields on ffprobe's report, as far as
    [extractMetadata] reads it.  A numeric field is [None] when it is
    missing or does not parse ([parseFloat] and [parseInt] give NaN). *)
Record ProbeStream : Type := mkProbeStream {
  codec_type : option string;
  ps_width : option Z;
  ps_height : option Z;
  codec_name : option string
}.

Record ProbeJson : Type := mkProbeJson {
  format_duration : option Q;
  format_bit_rate : option Z;
  streams : option (list ProbeStream)
}.

(** How the ffprobe child process ended: the ['error'] event, or ['close']
    with an exit code and the report read from its standard output
    ([None] when the [try] block around [JSON.parse] throws). *)
Inductive ProbeRun : Type :=
| probe_error
| probe_close (code : Z) (output : option ProbeJson).

(** How the ffmpeg child process ended. *)
Inductive ThumbRun : Type :=
| thumb_error
| thumb_close (code : Z).

(** [x || 0] on numbers and [x || 'unknown'] on strings. *)
Definition or_zero (x : option Z) : Z :=
  match x with
  | Some z => if z =? 0 then 0 else z
  | None => 0
  end.

Definition or_zeroQ (x : option Q) : Q :=
  match x with
  | Some q => if Qeq_bool q 0 then 0%Q else q
  | None => 0%Q
  end.

Definition or_unknown (x : option string) : string :=
  match x with
  | Some (String c s) => String c s
  | _ => "unknown"
  end.

Definition extractMetadata (run : ProbeRun) : Metadata :=
  match run with
  | probe_close code output =>
      if negb (code =? 0) then default_metadata
      else match output with
           | Some metadata =>
               let videoStream :=
                 s ← streams metadata;
                 List.find (fun s => bool_decide (codec_type s = Some "video")) s in
               {| md_duration := or_zeroQ (format_duration metadata);
                  md_width := or_zero (videoStream ≫= ps_width);
                  md_height := or_zero (videoStream ≫= ps_height);
                  md_codec := or_unknown (videoStream ≫= codec_name);
                  md_bitrate := or_zero (format_bit_rate metadata) |}
           | None => default_metadata
           end
  | probe_error => default_metadata
  end.

(** [generateThumbnail]: the output path, or [null]. *)
Definition generateThumbnail (run : ThumbRun) (outputPath : string) : option string :=
  match run with
  | thumb_close code => if negb (code =? 0) then None else Some outputPath
  | thumb_error => None
  end.

(* ===================================================================== *)
(** * The content analyzer ([server/services/sensitivityAnalyzer.js])    *)
(* ===================================================================== *)

(** The steps inside the [try] block of [analyzeSensitivity]: four
    simulated phases, each ending in a progress event, and the mock
    inference. *)
Inductive AnalysisPhase : Type :=
| frame_extraction
| frame_analysis
| sensitivity_detection
| audio_analysis
| mock_inference.

#[global] Instance AnalysisPhase_eq_dec : EqDecision AnalysisPhase.
Proof. solve_decision. Defined.

(** What lies outside the program during one run of the pipeline.
    [generateMockAnalysis] draws from [Math.random] (floating point, and a
    sort with a random comparator): the object it returns is taken from
    the environment.  [analysis_fault] names the phase of the analysis in
    which an error is raised, if any. *)
Record Env : Type := mkEnv {
  ffprobe_run : ProbeRun;
  ffmpeg_run : ThumbRun;
  import_fault : option JsError;
  analysis_fault : option (AnalysisPhase * JsError);
  generateMockAnalysis : SensitivityResult;
  now : Z;
  cwd : string
}.

Definition progress_event (videoId : string) (st : Status) (sg : Stage)
    (progress : Z) (message : string) : ProgressEvent :=
  mkEvent videoId st sg progress message false None.

(** Entering a phase raises the error scripted for it. *)
Definition enter (env : Env) (p : AnalysisPhase) : M unit :=
  match analysis_fault env with
  | Some (q, e) => if bool_decide (p = q) then throw e else ret tt
  | None => ret tt
  end.

Definition analyzeSensitivity (env : Env) (videoPath videoId : string)
    : M SensitivityResult :=
  try_catch
    (enter env frame_extraction ;;;
     emitVideoProgress (progress_event videoId processing analyzing_content 55
                          "Extracting frames for analysis...") ;;;
     enter env frame_analysis ;;;
     emitVideoProgress (progress_event videoId processing analyzing_content 65
                          "Analyzing video frames...") ;;;
     enter env sensitivity_detection ;;;
     emitVideoProgress (progress_event videoId processing analyzing_content 75
                          "Running sensitivity detection...") ;;;
     enter env audio_analysis ;;;
     emitVideoProgress (progress_event videoId processing analyzing_content 85
                          "Analyzing audio content...") ;;;
     enter env mock_inference ;;;
     ret (generateMockAnalysis env))
    (fun err =>
       ret {| classification := class_pending;
              confidence := 0;
              flags := [];
              analyzedAt := Some (now env);
              details := details_error (err_message err) |}).

(* ===================================================================== *)
(** * The pipeline ([processVideo])                                      *)
(* ===================================================================== *)

Inductive ProcessResult : Type :=
| process_success (video : Video)
| process_failure (error : string).

(** The groups of assignments to the document, one per step of
    [processVideo], each followed there by [video.save()]. *)

(* Update status to processing *)
Definition begin_processing (video : Video) : Video :=
  let video := set_status processing video in
  let video := set_processingStage extracting_metadata video in
  let video := set_processingProgress 10 video in
  video.

(* Step 1: Extract metadata *)
Definition store_metadata (metadata : Metadata) (video : Video) : Video :=
  let video := set_duration (md_duration metadata) video in
  let video := set_resolution (md_width metadata, md_height metadata) video in
  let video := set_metadata (md_codec metadata) (md_bitrate metadata) video in
  let video := set_processingProgress 30 video in
  let video := set_processingStage generating_thumbnail video in
  video.

(* Step 2: Generate thumbnail *)
Definition store_thumbnail (thumbnail : option string) (thumbnailPath : string)
    (video : Video) : Video :=
  let video := match thumbnail with
               | Some _ => set_thumbnailPath (Some thumbnailPath) video
               | None => video
               end in
  let video := set_processingProgress 50 video in
  let video := set_processingStage analyzing_content video in
  video.

(* Step 3: Sensitivity analysis *)
Definition store_analysis (sensitivityResult : SensitivityResult) (video : Video)
    : Video :=
  let video := set_sensitivityResult sensitivityResult video in
  let video := set_processingProgress 90 video in
  let video := set_processingStage finalizing video in
  video.

(* Step 4: Finalize *)
Definition finalize (video : Video) : Video :=
  let video := set_status completed video in
  let video := set_processingProgress 100 video in
  let video := set_processingStage done video in
  video.

(** The update document of the [catch] block:
    [{ status: 'failed', processingError: error.message, processingStage: 'error' }]. *)
Definition mark_failed (message : string) (v : Video) : Video :=
  set_processingStage error
    (set_processingError (Some message) (set_status failed v)).

Definition thumbnail_file (env : Env) (videoId : string) : string :=
  cwd env +:+ "/uploads/thumbnails/" +:+ videoId +:+ ".jpg".

(** The [try] block. *)
Definition processVideo_try (env : Env) (videoId : string) : M ProcessResult :=
  found <- findById videoId ;;
  match found with
  | None => throw (Error "Video not found")
  | Some video =>
      let video := begin_processing video in
      save video ;;;
      emitVideoProgress (progress_event videoId processing extracting_metadata 10
                           "Extracting video metadata...") ;;;
      let metadata := extractMetadata (ffprobe_run env) in
      let video := store_metadata metadata video in
      save video ;;;
      emitVideoProgress (progress_event videoId processing generating_thumbnail 30
                           "Generating thumbnail...") ;;;
      let thumbnailPath := thumbnail_file env videoId in
      let thumbnail := generateThumbnail (ffmpeg_run env) thumbnailPath in
      let video := store_thumbnail thumbnail thumbnailPath video in
      save video ;;;
      emitVideoProgress (progress_event videoId processing analyzing_content 50
                           "Analyzing content for sensitivity...") ;;;
      (* the dynamic import of the analyzer module *)
      match import_fault env with Some e => throw e | None => ret tt end ;;;
      sensitivityResult <- analyzeSensitivity env (filePath video) videoId ;;
      let video := store_analysis sensitivityResult video in
      save video ;;;
      emitVideoProgress (progress_event videoId processing finalizing 90
                           "Finalizing...") ;;;
      let video := finalize video in
      save video ;;;
      emitVideoProgress (mkEvent videoId completed done 100
                           "Processing complete!" false (Some sensitivityResult)) ;;;
      ret (process_success video)
  end.

(** The [catch] block. *)
Definition processVideo_catch (videoId : string) (err : JsError) : M ProcessResult :=
  try_catch
    (findByIdAndUpdate videoId (mark_failed (err_message err)) ;;;
     emitVideoProgress (mkEvent videoId failed error 0 (err_message err) true None))
    (fun updateError => ret tt) ;;;
  ret (process_failure (err_message err)).

Definition processVideo (env : Env) (videoId : string) : M ProcessResult :=
  try_catch (processVideo_try env videoId) (processVideo_catch videoId).

(* ===================================================================== *)
(** * Routes                                                             *)
(* ===================================================================== *)

Inductive Body : Type :=
| body_json (success : bool) (message : string)
| body_text (text : string)
| body_stream (bytes : list Byte.byte).

Record Response : Type := mkResponse {
  res_status : Z;
  res_headers : list (string * string);
  res_body : Body
}.

(** [res.status(code).json({ success, message })]. *)
Definition json (code : Z) (success : bool) (message : string) : Response :=
  mkResponse code [] (body_json success message).

(** The authenticated user of a request ([req.user]). *)
Record User : Type := mkUser { user_id : string; user_role : string }.

(** ** Upload and reprocess ([server/routes/videos.js]) *)

(** [new Video({ ..., status: 'pending', processingProgress: 0 })]: the
    fields given by the upload route, the schema defaults for the rest.
    The id is the one Mongoose generates. *)
Definition new_Video (id file_mimetype : string) (file_size : Z)
    (file_path : string) (user : User) : Video :=
  {| _id := id;
     mimetype := file_mimetype;
     size := file_size;
     filePath := file_path;
     owner := user_id user;
     accessibleBy := [];
     isPublic := false;
     views := 0;
     status := pending;
     processingProgress := 0;
     processingStage := queued;
     processingError := None;
     duration := 0%Q;
     resolution := (0, 0);
     metadata_codec := None;
     metadata_bitrate := None;
     thumbnailPath := None;
     sensitivityResult := default_sensitivityResult |}.

(** The handler of [POST /upload] once the request passed validation:
    create the record, save it, hand its id to the scheduler.  Deleting the
    uploaded file after an error concerns the file system only. *)
Definition upload (id file_mimetype : string) (file_size : Z)
    (file_path : string) (user : User) : M Response :=
  try_catch
    (let video := new_Video id file_mimetype file_size file_path user in
     save video ;;;
     queue_add (_id video) ;;;
     ret (json 201 true "Video uploaded successfully. Processing started."))
    (fun err => ret (json 500 false "Server error during upload")).

(* Reset processing status *)
Definition reset_processing (video : Video) : Video :=
  let video := set_status pending video in
  let video := set_processingProgress 0 video in
  let video := set_processingStage queued video in
  let video := set_processingError None video in
  video.

(** [POST /:id/reprocess]. *)
Definition reprocess (params_id : string) (user : User) : M Response :=
  try_catch
    (found <- findById params_id ;;
     match found with
     | None => ret (json 404 false "Video not found")
     | Some video =>
         (* Check ownership (unless admin) *)
         if negb (bool_decide (user_role user = "admin"))
            && negb (bool_decide (owner video = user_id user))
         then ret (json 403 false "Access denied")
         else
           let video := reset_processing video in
           save video ;;;
           (* Add to processing queue *)
           queue_add (_id video) ;;;
           ret (json 200 true "Video re-processing started")
     end)
    (fun err => ret (json 500 false "Server error")).

(** ** The byte-range media server ([server/routes/stream.js]) *)

Definition MAX_SAFE_INTEGER : Z := 9007199254740991.

(** [fs.createReadStream(path, { start, end })] on a file with the given
    content; without options the whole file is read.  Node checks both offsets when the stream is constructed:
    each must be an integer between 0 and [Number.MAX_SAFE_INTEGER], and
    [start] must not exceed [end]; otherwise it throws a [RangeError].  The
    stream then yields the bytes from [start] to [end] inclusive, stopping
    at the end of the file. *)
Definition validateInteger (n : jsnum) : bool :=
  match n with
  | Int z => (0 <=? z) && (z <=? MAX_SAFE_INTEGER)
  | NaN => false
  end.

Definition createReadStream (content : list Byte.byte)
    (options : option (jsnum * jsnum)) : Result (list Byte.byte) :=
  match options with
  | None => Ok content
  | Some (Int s, Int e) =>
      if validateInteger (Int s) && validateInteger (Int e) && (s <=? e)
      then Ok (take (Z.to_nat (e - s + 1)) (drop (Z.to_nat s) content))
      else Throw (mkError "RangeError" "ERR_OUT_OF_RANGE")
  | Some _ => Throw (mkError "RangeError" "ERR_OUT_OF_RANGE")
  end.

(** The two offsets the handler reads from a [Range] header. *)
Definition range_parts (range : string) : list string :=
  split "-"%char (replace_first "bytes=" range).

Definition range_start (range : string) : jsnum :=
  parseInt (default "" (range_parts range !! 0%nat)).

Definition range_end (range : string) (fileSize : Z) : jsnum :=
  if truthy (range_parts range !! 1%nat)
  then parseInt (default "" (range_parts range !! 1%nat))
  else Int (fileSize - 1).

(** [GET /:id].  [files] is the file system: path to content.  The header
    [req.headers.range] may be missing. *)
Definition stream (files : gmap string (list Byte.byte)) (params_id : string)
    (user : User) (range : option string) : M Response :=
  try_catch
    (found <- findById params_id ;;
     match found with
     | None => ret (json 404 false "Video not found")
     | Some video =>
         if negb (canAccess video (user_id user) (user_role user))
         then ret (json 403 false "Access denied")
         else if negb (bool_decide (status video = completed))
         then ret (json 400 false "Video is still processing")
         else
           match files !! filePath video with
           | None => ret (json 404 false "Video file not found")
           | Some content =>
               let fileSize := Z.of_nat (length content) in
               (* Increment view count *)
               (if negb (truthy range) || bool_decide (range = Some "bytes=0-")
                then findByIdAndUpdate params_id (fun v => set_views (views v + 1) v)
                else ret tt) ;;;
               match range with
               | Some (String c r) =>
                   let range := String c r in
                   let start := range_start range in
                   let end_ := range_end range fileSize in
                   (* Validate range *)
                   if js_ge start (Int fileSize)
                   then ret (mkResponse 416 [] (body_text "Requested range not satisfiable"))
                   else
                     let chunksize := js_add (js_sub end_ start) (Int 1) in
                     file <- lift (createReadStream content (Some (start, end_))) ;;
                     let headers :=
                       [("Content-Range",
                         "bytes " +:+ js_to_string start +:+ "-" +:+ js_to_string end_
                           +:+ "/" +:+ Z_to_string fileSize);
                        ("Accept-Ranges", "bytes");
                        ("Content-Length", js_to_string chunksize);
                        ("Content-Type", mimetype video)] in
                     ret (mkResponse 206 headers (body_stream file))
               | _ =>
                   let headers :=
                     [("Content-Length", Z_to_string fileSize);
                      ("Content-Type", mimetype video);
                      ("Accept-Ranges", "bytes")] in
                   file <- lift (createReadStream content None) ;;
                   ret (mkResponse 200 headers (body_stream file))
               end
           end
     end)
    (fun err =>
       if bool_decide (err_name err = "CastError")
       then ret (json 404 false "Video not found")
       else ret (json 500 false "Server error during streaming")).

(* ===================================================================== *)
(** * Vocabulary of the properties                                       *)
(* ===================================================================== *)

(** The record versions a trace persisted, and the events it emitted. *)
Definition persisted (tr : list Obs) : list Video :=
  omap (fun o => match o with Persisted v => Some v | Emitted _ => None end) tr.

Definition emitted (tr : list Obs) : list ProgressEvent :=
  omap (fun o => match o with Emitted e => Some e | Persisted _ => None end) tr.

(** The same world, observed from now on. *)
Definition fresh (w : World) : World :=
  mkWorld (store w) (faults w) (calls w) (io w) [] (processingQueue w).

(** The store answers every call. *)
Definition reachable (w : World) : Prop :=
  forall n, faults w n = None.







Definition is_error_event (e : ProgressEvent) : bool :=
  match ev_stage e with
  | error => true
  | _ => false
  end.

(** The stages and progress values a record went through in a run that
    found it as [v0]. *)
Definition item_stages (v0 : Video) (tr : list Obs) : list Stage :=
  processingStage v0 :: map processingStage (persisted tr).


Definition event_stages (tr : list Obs) : list Stage :=
  map ev_stage (emitted tr).



(** A failure is on record: the document is marked failed with the
    message, and exactly one error event went out. *)
Definition failure_recorded (id message : string) (w : World) : Prop :=
  (exists v, store w !! id = Some v /\ status v = failed /\
             processingStage v = error /\ processingError v = Some message) /\
  length (List.filter is_error_event (emitted (trace w))) = 1%nat.

(** The event the [catch] block emits. *)
Definition error_event (id message : string) : ProgressEvent :=
  mkEvent id failed error 0 message true None.

(** The result [analyzeSensitivity] returns from its [catch] block. *)
Definition pending_result (env : Env) (err : JsError) : SensitivityResult :=
  {| classification := class_pending; confidence := 0; flags := [];
     analyzedAt := Some (now env); details := details_error (err_message err) |}.

(** The failures of the two child processes: the ['error'] event, a
    non-zero exit code, or a report that does not parse. *)
Definition probe_failed (run : ProbeRun) : bool :=
  match run with
  | probe_error => true
  | probe_close code output =>
      negb (code =? 0) || match output with None => true | Some _ => false end
  end.

Definition thumb_failed (run : ThumbRun) : bool :=
  match run with
  | thumb_error => true
  | thumb_close code => negb (code =? 0)
  end.

(** A list of stages with the repetitions of one stage merged. *)
Fixpoint compress (l : list Stage) : list Stage :=
  match l with
  | a :: t =>
      match t with
      | b :: _ => if bool_decide (a = b) then compress t else a :: compress t
      | [] => [a]
      end
  | [] => []
  end.

Definition full_sequence : list Stage :=
  [queued; extracting_metadata; generating_thumbnail; analyzing_content;
   finalizing; done].

(** The events tell the whole sequence from [queued] to [done], or end
    with an error event. *)
Definition announces_full_run (tr : list Obs) : Prop :=
  compress (event_stages tr) = full_sequence \/
  exists e, last (emitted tr) = Some e /\ ev_stage e = error.

(** The scheduler's invariant: the counter counts the awaited calls, never
    more than the pool holds, and an id waits only while the pool is
    full. *)
Definition queue_ok (q : ProcessingQueue) : Prop :=
  concurrency q = 2 /\
  activeJobs q = Z.of_nat (length (running q)) /\
  activeJobs q <= 2 /\
  (queue q <> [] -> activeJobs q = 2).

(** The ids submitted in a history, in order. *)
Definition submissions (es : list QueueEvent) : list string :=
  omap (fun e => match e with submitted id => Some id | settled _ _ => None end) es.

(** A series of settlements: which awaited call settles, and how. *)
Definition settlements (l : list (nat * bool)) : list QueueEvent :=
  map (fun ib => settled ib.1 ib.2) l.

(** The response to a range request, as the data model describes it. *)
Definition header (name : string) (r : Response) : option string :=
  snd <$> List.find (fun h => bool_decide (fst h = name)) (res_headers r).

Definition body_bytes (r : Response) : option (list Byte.byte) :=
  match res_body r with
  | body_stream bytes => Some bytes
  | _ => None
  end.

(** Status 206, the two headers, and a body of exactly the bytes
    [s..e] of the file. *)
Definition serves_span (content : list Byte.byte) (s e : Z) (r : Response) : Prop :=
  res_status r = 206 /\
  header "Content-Range" r =
    Some ("bytes " +:+ Z_to_string s +:+ "-" +:+ Z_to_string e +:+ "/"
          +:+ Z_to_string (Z.of_nat (length content))) /\
  header "Content-Length" r = Some (Z_to_string (e - s + 1)) /\
  exists bytes, body_bytes r = Some bytes /\
                Z.of_nat (length bytes) = e - s + 1.

(** The headers of a partial response. *)
Definition range_headers (start end_ : jsnum) (fileSize : Z) (mime : string)
    : list (string * string) :=
  [("Content-Range",
    "bytes " +:+ js_to_string start +:+ "-" +:+ js_to_string end_
      +:+ "/" +:+ Z_to_string fileSize);
   ("Accept-Ranges", "bytes");
   ("Content-Length", js_to_string (js_add (js_sub end_ start) (Int 1)));
   ("Content-Type", mime)].

(** ** Sample data *)

Definition alice : User := mkUser "u1" "editor".

Definition sample_video : Video :=
  new_Video "v1" "video/mp4" 1000 "/uploads/v1.mp4" alice.

Definition sample_completed : Video := finalize sample_video.

Definition sample_failed : Video := mark_failed "ffmpeg crashed" sample_video.

Definition always_answers : nat -> option JsError := fun _ => None.

(** The store refuses the calls whose numbers are listed. *)
Definition refuses (ns : list nat) : nat -> option JsError :=
  fun n => if bool_decide (n ∈ ns) then Some (Error "store unreachable") else None.

Definition sample_world (v : Video) (script : nat -> option JsError) : World :=
  mkWorld {[ "v1" := v ]} script 0 true [] new_ProcessingQueue.

Definition sample_env : Env :=
  {| ffprobe_run := probe_close 1 None;
     ffmpeg_run := thumb_close 0;
     import_fault := None;
     analysis_fault := None;
     generateMockAnalysis :=
       {| classification := class_safe; confidence := 90; flags := [];
          analyzedAt := Some 0;
          details := details_mock 30 2000 [] |};
     now := 0;
     cwd := "/srv" |}.

Definition sample_files : gmap string (list Byte.byte) :=
  {[ "/uploads/v1.mp4" := replicate 1000 Byte.x00 ]}.

(** Unfolding of the monad under [simpl] and [cbn]. *)
Arguments bind {A B} c k w /.
Arguments try_catch {A} body handler w /.
Arguments ret {A} a w /.
Arguments throw {A} e w /.
Arguments lift {A} r w /.
Arguments store_call w /.
Arguments write v w /.
Arguments findById id w /.
Arguments save v w /.
Arguments findByIdAndUpdate id update w /.
Arguments emitVideoProgress e w /.
Arguments queue_add videoId w /.
Arguments observe o w /.
Arguments enter env p w /.
Arguments analyzeSensitivity env videoPath videoId w /.
Arguments extractMetadata : simpl never.
Arguments generateThumbnail : simpl never.
Arguments thumbnail_file : simpl never.

(* ===================================================================== *)
(** * Roles and permissions ([server/middleware/rbac.js])                *)
(* ===================================================================== *)

(** Reading [object[key]] on an object literal with a key that is not
    fixed: the value of an own property, something inherited from
    [Object.prototype] (a function, or the prototype itself: never an
    array), or [undefined]. *)
Inductive Property (A : Type) : Type :=
| own (a : A)
| inherited
| undefined.
Arguments own {A} a.
Arguments inherited {A}.
Arguments undefined {A}.

Definition Object_prototype : list string :=
  ["constructor"; "hasOwnProperty"; "isPrototypeOf"; "propertyIsEnumerable";
   "toLocaleString"; "toString"; "valueOf"; "__defineGetter__";
   "__defineSetter__"; "__lookupGetter__"; "__lookupSetter__"; "__proto__"].

Definition get {A} (object : list (string * A)) (key : string) : Property A :=
  match List.find (fun kv => bool_decide (kv.1 = key)) object with
  | Some kv => own kv.2
  | None => if bool_decide (key ∈ Object_prototype) then inherited else undefined
  end.

Definition roleHierarchy : list (string * Z) :=
  [("viewer", 1); ("editor", 2); ("admin", 3)].

Definition permissions : list (string * list string) :=
  [("video:upload", ["editor"; "admin"]);
   ("video:read", ["viewer"; "editor"; "admin"]);
   ("video:update", ["editor"; "admin"]);
   ("video:delete", ["editor"; "admin"]);
   ("video:read:all", ["admin"]);
   ("user:read", ["admin"]);
   ("user:create", ["admin"]);
   ("user:update", ["admin"]);
   ("user:delete", ["admin"]);
   ("system:settings", ["admin"]);
   ("system:stats", ["admin"])].

(** [(permissions[permission] || []).includes(userRole)]: what is inherited
    from [Object.prototype] is truthy and has no [includes]. *)
Definition hasPermission (userRole permission : string) : Result bool :=
  match get permissions permission with
  | own allowedRoles => Ok (bool_decide (userRole ∈ allowedRoles))
  | undefined => Ok false
  | inherited =>
      Throw (mkError "TypeError" "allowedRoles.includes is not a function")
  end.

(** What a middleware does with a request: it calls [next()], and the
    handlers after it see [req.user], or it sends a response. *)
Inductive Middleware : Type :=
| next (req_user : User)
| respond (r : Response).

Definition requirePermission (permission : string) (req_user : option User)
    : Result Middleware :=
  match req_user with
  | None => Ok (respond (json 401 false "Authentication required"))
  | Some user =>
      let userRole := user_role user in
      match get permissions permission with
      | inherited =>
          Throw (mkError "TypeError" "allowedRoles.includes is not a function")
      | allowedRoles =>
          let allowedRoles :=
            match allowedRoles with own l => l | _ => [] end in
          if negb (bool_decide (userRole ∈ allowedRoles))
          then Ok (respond (json 403 false ("Permission denied: " +:+ permission)))
          else Ok (next user)
      end
  end.

(** [POST /upload] behind its permission check
    ([requirePermission('video:upload')]), for a file that
    [handleVideoUpload] accepted. *)
Definition upload_route (id file_mimetype : string) (file_size : Z)
    (file_path : string) (req_user : option User) : M Response :=
  match requirePermission "video:upload" req_user with
  | Ok (next user) => upload id file_mimetype file_size file_path user
  | Ok (respond r) => ret r
  | Throw e => throw e
  end.

(* ===================================================================== *)
(** * Deleting and sharing ([server/routes/videos.js])                   *)
(* ===================================================================== *)

(** The file system: path to content. *)
Abbreviation Files := (gmap string (list Byte.byte)).

(** [deleteVideoFile(filePath)] and [deleteThumbnail(thumbnailPath)]
    ([server/middleware/upload.js]).  [unlink path] tells whether
    [fs.promises.unlink] succeeds on an existing path; its failure is
    caught inside the function, which then returns [false]. *)
Definition deleteVideoFile (unlink : string -> bool) (filePath : string)
    (files : Files) : Files * bool :=
  match files !! filePath with
  | Some _ =>
      if unlink filePath then (delete filePath files, true) else (files, false)
  | None => (files, false)
  end.

Definition deleteThumbnail (unlink : string -> bool) (thumbnailPath : option string)
    (files : Files) : Files * bool :=
  match thumbnailPath with
  | Some (String c s) =>
      let thumbnailPath := String c s in
      match files !! thumbnailPath with
      | Some _ =>
          if unlink thumbnailPath then (delete thumbnailPath files, true)
          else (files, false)
      | None => (files, false)
      end
  | _ => (files, false)
  end.

(** Handlers that change the file system as well thread the files next to
    the world; what was done to either is kept when an exception is
    thrown. *)
Definition FM (A : Type) : Type := Files -> World -> Files * World * Result A.

Definition fm_ret {A} (a : A) : FM A := fun files w => (files, w, Ok a).

Definition fm_bind {A B} (c : FM A) (k : A -> FM B) : FM B :=
  fun files w =>
    match c files w with
    | (files', w', Ok a) => k a files' w'
    | (files', w', Throw e) => (files', w', Throw e)
    end.

Definition fm_try_catch {A} (body : FM A) (handler : JsError -> FM A) : FM A :=
  fun files w =>
    match body files w with
    | (files', w', Ok a) => (files', w', Ok a)
    | (files', w', Throw e) => handler e files' w'
    end.

Definition on_store {A} (c : M A) : FM A :=
  fun files w => let '(w', r) := c w in (files, w', r).

Definition on_files {A} (f : Files -> Files * A) : FM A :=
  fun files w => let '(files', a) := f files in (files', w, Ok a).

Notation "x <~ c1 ;; c2" := (fm_bind c1 (fun x => c2))
  (at level 100, c1 at next level, right associativity).
Notation "c1 ~;; c2" := (fm_bind c1 (fun _ => c2))
  (at level 100, right associativity).

(** [Video.findByIdAndDelete(id)]. *)
Definition findByIdAndDelete (id : string) : M unit :=
  store_call ;;;
  (fun w =>
     (mkWorld (delete id (store w)) (faults w) (calls w) (io w) (trace w)
        (processingQueue w), Ok tt)).

(** The handler of [DELETE /:id]. *)
Definition delete_video (unlink : string -> bool) (params_id : string) (user : User)
    : FM Response :=
  fm_try_catch
    (found <~ on_store (findById params_id) ;;
     match found with
     | None => fm_ret (json 404 false "Video not found")
     | Some video =>
         (* Check ownership (unless admin) *)
         if negb (bool_decide (user_role user = "admin"))
            && negb (bool_decide (owner video = user_id user))
         then fm_ret (json 403 false "Access denied")
         else
           (* Delete files *)
           on_files (deleteVideoFile unlink (filePath video)) ~;;
           (if truthy (thumbnailPath video)
            then on_files (deleteThumbnail unlink (thumbnailPath video))
            else fm_ret false) ~;;
           (* Delete from database *)
           on_store (findByIdAndDelete params_id) ~;;
           fm_ret (json 200 true "Video deleted successfully")
     end)
    (fun err => fm_ret (json 500 false "Server error")).

(** [DELETE /:id] behind [requirePermission('video:delete')]. *)
Definition delete_route (unlink : string -> bool) (params_id : string)
    (req_user : option User) : FM Response :=
  match requirePermission "video:delete" req_user with
  | Ok (next user) => delete_video unlink params_id user
  | Ok (respond r) => fm_ret r
  | Throw e => fun files w => (files, w, Throw e)
  end.

(** [[...new Set(l)]]: the values in the order of their first
    occurrence. *)
Definition Set_add (x : string) (s : list string) : list string :=
  if bool_decide (x ∈ s) then s else s ++ [x].

Definition new_Set (l : list string) : list string :=
  fold_left (fun s x => Set_add x s) l [].

Definition set_accessibleBy (x : list string) (v : Video) : Video :=
  mkVideo (_id v) (mimetype v) (size v) (filePath v) (owner v) x
    (isPublic v) (views v) (status v) (processingProgress v) (processingStage v)
    (processingError v) (duration v) (resolution v) (metadata_codec v)
    (metadata_bitrate v) (thumbnailPath v) (sensitivityResult v).

(** A reply that carries data ([res.json({ success: true, data })]), or one
    of the plain responses. *)
Inductive Reply (A : Type) : Type :=
| reply_data (data : A)
| reply (r : Response).
Arguments reply_data {A} data.
Arguments reply {A} r.

(** [POST /:id/share]; the data of the reply is [sharedWith].  The
    validator wants [userIds] to be an array that is not empty. *)
Definition share (params_id : string) (user : User) (userIds : list string)
    : M (Reply nat) :=
  try_catch
    (if bool_decide (userIds = [])
     then ret (reply (json 400 false "Validation failed"))
     else
       (found <- findById params_id ;;
        match found with
        | None => ret (reply (json 404 false "Video not found"))
        | Some video =>
            (* Check ownership (unless admin) *)
            if negb (bool_decide (user_role user = "admin"))
               && negb (bool_decide (owner video = user_id user))
            then ret (reply (json 403 false "Access denied"))
            else
              (* Add users to accessibleBy (avoiding duplicates) *)
              let currentAccessible := accessibleBy video in
              let newAccessible := new_Set (currentAccessible ++ userIds) in
              let video := set_accessibleBy newAccessible video in
              save video ;;;
              ret (reply_data (length newAccessible))
        end))
    (fun err => ret (reply (json 500 false "Server error"))).

(* ===================================================================== *)
(** * Thumbnail and stream information ([server/routes/stream.js])       *)
(* ===================================================================== *)

(** What a handler sends: a response of its own making, or a file handed
    to [res.sendFile]. *)
Inductive Sent : Type :=
| sent (r : Response)
| sendFile (path : string).

(** [GET /:id/thumbnail]. *)
Definition thumbnail (files : Files) (params_id : string) (user : User) : M Sent :=
  try_catch
    (found <- findById params_id ;;
     match found with
     | None => ret (sent (json 404 false "Video not found"))
     | Some video =>
         (* Check access *)
         if negb (canAccess video (user_id user) (user_role user))
         then ret (sent (json 403 false "Access denied"))
         else
           (* Check if thumbnail exists *)
           match thumbnailPath video with
           | Some (String c s) =>
               match files !! String c s with
               | Some _ => ret (sendFile (String c s))
               | None => ret (sent (json 404 false "Thumbnail not available"))
               end
           | _ => ret (sent (json 404 false "Thumbnail not available"))
           end
     end)
    (fun err => ret (sent (json 500 false "Server error"))).

(** The document that
    [findById(id).select('title duration resolution mimetype size status')]
    yields: the paths named and [_id].  Every other path of the schema,
    [owner] among them, is [undefined] on it. *)
Record Selected : Type := mkSelected {
  sel_id : string;
  sel_duration : Q;
  sel_resolution : Z * Z;
  sel_mimetype : string;
  sel_size : Z;
  sel_status : Status
}.

Definition select (v : Video) : Selected :=
  mkSelected (_id v) (duration v) (resolution v) (mimetype v) (size v) (status v).

(** [canAccess] on such a document: past the test for an administrator it
    evaluates [this.owner.toString()] on an [owner] that is [undefined]. *)
Definition canAccess_selected (video : Selected) (userId userRole : string)
    : Result bool :=
  if bool_decide (userRole = "admin") then Ok true
  else Throw (mkError "TypeError"
                "Cannot read properties of undefined (reading 'toString')").

(** The data of [GET /:id/info], without the title and the two formatted
    virtuals (floating point), as in [Video]. *)
Record StreamInfo : Type := mkStreamInfo {
  info_duration : Q;
  info_resolution : Z * Z;
  info_mimetype : string;
  info_size : Z;
  info_status : Status;
  info_streamUrl : string
}.

(** [GET /:id/info]. *)
Definition info (params_id : string) (user : User) : M (Reply StreamInfo) :=
  try_catch
    (found <- findById params_id ;;
     match select <$> found with
     | None => ret (reply (json 404 false "Video not found"))
     | Some video =>
         (* Check access *)
         allowed <- lift (canAccess_selected video (user_id user) (user_role user)) ;;
         if negb allowed
         then ret (reply (json 403 false "Access denied"))
         else
           ret (reply_data
                  {| info_duration := sel_duration video;
                     info_resolution := sel_resolution video;
                     info_mimetype := sel_mimetype video;
                     info_size := sel_size video;
                     info_status := sel_status video;
                     info_streamUrl := "/api/stream/" +:+ sel_id video |})
     end)
    (fun err => ret (reply (json 500 false "Server error"))).

(* ===================================================================== *)
(** * Subscriptions ([server/config/socket.js])                          *)
(* ===================================================================== *)

(** The rooms of the socket server: the sockets that joined each room. *)
Abbreviation Rooms := (gmap string (gset string)).

Definition members (room : string) (rooms : Rooms) : gset string :=
  default ∅ (rooms !! room).

(** [socket.join(room)] and [socket.leave(room)]. *)
Definition join (socket room : string) (rooms : Rooms) : Rooms :=
  <[room := {[socket]} ∪ members room rooms]> rooms.

Definition leave (socket room : string) (rooms : Rooms) : Rooms :=
  <[room := members room rooms ∖ {[socket]}]> rooms.

(** What a connected client can send; a socket that disconnects leaves all
    its rooms. *)
Inductive ClientMessage : Type :=
| subscribe_video (videoId : string)
| unsubscribe_video (videoId : string)
| subscribe_user (userId : string)
| disconnect.

(** The handlers [initializeSocket] installs on a socket. *)
Definition on (socket : string) (m : ClientMessage) (rooms : Rooms) : Rooms :=
  match m with
  | subscribe_video videoId => join socket ("video:" +:+ videoId) rooms
  | unsubscribe_video videoId => leave socket ("video:" +:+ videoId) rooms
  | subscribe_user userId => join socket ("user:" +:+ userId) rooms
  | disconnect => (fun sockets => sockets ∖ {[socket]}) <$> rooms
  end.

(** The messages of all clients, in the order the server handles them. *)
Definition serve (history : list (string * ClientMessage)) (rooms : Rooms) : Rooms :=
  fold_left (fun rooms sm => on sm.1 sm.2 rooms) history rooms.

(** [io.to(`video:${videoId}`).emit(...)] and
    [io.to(`user:${userId}`).emit(...)]: the sockets an event goes to. *)
Definition to_video (videoId : string) (rooms : Rooms) : gset string :=
  members ("video:" +:+ videoId) rooms.

Definition to_user (userId : string) (rooms : Rooms) : gset string :=
  members ("user:" +:+ userId) rooms.

(* ===================================================================== *)
(** * Analysis in batches ([server/services/sensitivityAnalyzer.js])     *)
(* ===================================================================== *)

(** [batchAnalyze(videos)]: one analysis after the other, each in the
    environment of its own time; [results] is the array built up by
    [results.push]. *)
Fixpoint batchAnalyze_from (results : list (string * SensitivityResult))
    (videos : list (Env * (string * string)))
    : M (list (string * SensitivityResult)) :=
  match videos with
  | [] => ret results
  | (env, (videoId, videoPath)) :: rest =>
      result <- analyzeSensitivity env videoPath videoId ;;
      batchAnalyze_from (results ++ [(videoId, result)]) rest
  end.

Definition batchAnalyze (videos : list (Env * (string * string)))
    : M (list (string * SensitivityResult)) :=
  batchAnalyze_from [] videos.

(* ===================================================================== *)
(** * Listing ([Video.getForUser], [GET /api/videos])                    *)
(* ===================================================================== *)

(** A document of the collection with the field the listing filters on
    and [Video] leaves out. *)
Record Document : Type := mkDocument {
  doc : Video;
  organization : string
}.

(** The filters [getForUser] builds: equalities on fields (on an array
    field: membership), and one [$or] of such conjunctions. *)
Inductive Clause : Type :=
| owner_is (userId : string)
| accessibleBy_has (userId : string)
| isPublic_is (b : bool)
| organization_is (name : string)
| status_is (s : Status)
| classification_is (c : Classification).

Record Query : Type := mkQuery {
  q_fields : list Clause;
  q_or : option (list (list Clause))
}.

Definition holds (d : Document) (c : Clause) : bool :=
  match c with
  | owner_is userId => bool_decide (owner (doc d) = userId)
  | accessibleBy_has userId => bool_decide (userId ∈ accessibleBy (doc d))
  | isPublic_is b => bool_decide (isPublic (doc d) = b)
  | organization_is name => bool_decide (organization d = name)
  | status_is s => bool_decide (status (doc d) = s)
  | classification_is c =>
      bool_decide (classification (sensitivityResult (doc d)) = c)
  end.

Definition matches (q : Query) (d : Document) : bool :=
  forallb (holds d) (q_fields q) &&
  match q_or q with
  | Some alternatives => existsb (forallb (holds d)) alternatives
  | None => true
  end.

Record Options : Type := mkOptions {
  opt_status : option Status;
  opt_classification : option Classification;
  opt_page : Z;
  opt_limit : Z
}.

Record Pagination : Type := mkPagination {
  page : Z;
  limit : Z;
  total : Z;
  pages : Z
}.

Record Listing : Type := mkListing {
  videos : list Document;
  pagination : Pagination
}.

(** The query of [getForUser]. *)
Definition getForUser_query (userId userRole organization : string)
    (options : Options) : Query :=
  let query :=
    if bool_decide (userRole = "admin")
    then (* Admin sees all videos in their organization *)
      mkQuery [organization_is organization] None
    else (* Others see only their videos or shared videos *)
      mkQuery []
        (Some [[owner_is userId];
               [accessibleBy_has userId];
               [isPublic_is true; organization_is organization]]) in
  let query :=
    match opt_status options with
    | Some s => mkQuery (q_fields query ++ [status_is s]) (q_or query)
    | None => query
    end in
  let query :=
    match opt_classification options with
    | Some c => mkQuery (q_fields query ++ [classification_is c]) (q_or query)
    | None => query
    end in
  query.

(** [Math.ceil(a / b)] for a divisor that is positive. *)
Definition ceil_div (a b : Z) : Z := - ((- a) / b).

(** [Video.getForUser] on a collection.  [sort] is the order MongoDB puts
    the matching documents in for the sort key asked for.  The route calls
    it with a page and a limit of at least 1, and the model is written for
    these.  The two queries of [Promise.all] are two calls to the store. *)
Definition getForUser (sort : list Document -> list Document)
    (collection : list Document) (userId userRole organization : string)
    (options : Options) : M Listing :=
  let query := getForUser_query userId userRole organization options in
  let page := opt_page options in
  let limit := opt_limit options in
  let skip := (page - 1) * limit in
  store_call ;;;
  store_call ;;;
  let found := List.filter (matches query) collection in
  let total := Z.of_nat (length found) in
  ret {| videos := take (Z.to_nat limit) (drop (Z.to_nat skip) (sort found));
         pagination := {| page := page; limit := limit; total := total;
                          pages := ceil_div total limit |} |}.




(* ===================================================================== *)
(** * Vocabulary of the further properties                               *)
(* ===================================================================== *)

(** The fields of a record that no run may change: what was fixed at
    ingestion, and who may see the item. *)
Definition same_identity (v0 v : Video) : Prop :=
  _id v = _id v0 /\ mimetype v = mimetype v0 /\ size v = size v0 /\
  filePath v = filePath v0 /\ owner v = owner v0 /\
  accessibleBy v = accessibleBy v0 /\ isPublic v = isPublic v0.

(** The level of a role in the hierarchy. *)
Definition role_level (role : string) : option Z :=
  match get roleHierarchy role with
  | own level => Some level
  | _ => None
  end.

(** Whether a socket wants the events of a video after a history of
    messages: its last word on that video counts, and a disconnection
    ends every subscription. *)
Definition wants_step (socket videoId : string) (before : bool)
    (sm : string * ClientMessage) : bool :=
  if bool_decide (sm.1 = socket)
  then match sm.2 with
       | subscribe_video v => if bool_decide (v = videoId) then true else before
       | unsubscribe_video v => if bool_decide (v = videoId) then false else before
       | subscribe_user _ => before
       | disconnect => false
       end
  else before.

Definition wants (socket videoId : string) (history : list (string * ClientMessage))
    : bool :=
  fold_left (wants_step socket videoId) history false.

(** Whether a socket gets the notifications of a user: no message ends
    such a subscription, only the disconnection does. *)
Definition listens_step (socket userId : string) (before : bool)
    (sm : string * ClientMessage) : bool :=
  if bool_decide (sm.1 = socket)
  then match sm.2 with
       | subscribe_user u => if bool_decide (u = userId) then true else before
       | disconnect => false
       | _ => before
       end
  else before.

Definition listens (socket userId : string) (history : list (string * ClientMessage))
    : bool :=
  fold_left (listens_step socket userId) history false.

(** The videos a listing call shows, none when it fails. *)
Definition listed (r : World * Result Listing) : list Document :=
  match r.2 with
  | Ok l => videos l
  | Throw _ => []
  end.

Definition unlink_works : string -> bool := fun _ => true.

Arguments fm_ret {A} a files w /.
Arguments fm_bind {A B} c k files w /.
Arguments fm_try_catch {A} body handler files w /.
Arguments on_store {A} c files w /.
Arguments on_files {A} f files w /.
Arguments findByIdAndDelete id w /.

(* ===================================================================== *)
(** * Properties of the scheduler                                        *)
(* ===================================================================== *)

Lemma new_ProcessingQueue_ok : queue_ok new_ProcessingQueue.
Proof. unfold queue_ok; simpl. repeat split; try lia. congruence. Qed.

Lemma process_ok q :
  concurrency q = 2 ->
  activeJobs q = Z.of_nat (length (running q)) ->
  activeJobs q <= 2 ->
  ((2 <= length (queue q))%nat -> 1 <= activeJobs q) ->
  queue_ok (process q).
Proof.
  intros Hc Ha Hle Hq. unfold process. rewrite Hc.
  destruct (Z.leb_spec 2 (activeJobs q)) as [Hfull | Hfree]; simpl.
  - repeat split; auto. intros _. lia.
  - destruct (queue q) as [|videoId rest] eqn:Eq; simpl.
    + repeat split; auto. rewrite Eq. congruence.
    + repeat split; simpl; auto; try lia.
      * rewrite length_app. simpl. lia.
      * intros Hrest. destruct rest; [congruence|]. simpl in Hq. lia.
Qed.

(** In a state that satisfies the invariant. *)
Section Invariant.

Variable q : ProcessingQueue.
Hypothesis q_ok : queue_ok q.

Lemma add_ok videoId : queue_ok (add videoId q).
Proof.
  destruct q_ok as (Hc & Ha & Hle & Hq). unfold add.
  apply process_ok; simpl; auto.
  rewrite length_app. simpl. intros Hlen.
  destruct (queue q) as [|x l]; simpl in Hlen; [lia|].
  assert (activeJobs q = 2) by (apply Hq; congruence). lia.
Qed.

Lemma settle_ok i fulfilled : queue_ok (settle i fulfilled q).
Proof.
  destruct q_ok as (Hc & Ha & Hle & Hq). unfold settle.
  destruct (running q !! i) as [x|] eqn:Hi; [|exact q_ok].
  pose proof (lookup_lt_Some _ _ _ Hi) as Hlt.
  apply process_ok; simpl; auto; try lia.
  - rewrite length_app, length_take, length_drop. lia.
  - intros Hlen. destruct (queue q) as [|y l] eqn:Eq; simpl in Hlen; [lia|].
    assert (activeJobs q = 2) by (apply Hq; congruence). lia.
Qed.

Lemma queue_step_ok e : queue_ok (queue_step q e).
Proof. destruct e; simpl; auto using add_ok, settle_ok. Qed.

(** What a settlement does: the slot is freed, and taken at once by the
    head of the queue when an id is waiting. *)
Lemma settle_starts_head i fulfilled x :
  running q !! i = Some x ->
  settle i fulfilled q =
    let rest := take i (running q) ++ drop (S i) (running q) in
    match queue q with
    | [] =>
        {| queue := []; concurrency := 2; activeJobs := activeJobs q - 1;
           running := rest; started := started q |}
    | head :: waiting =>
        {| queue := waiting; concurrency := 2; activeJobs := activeJobs q - 1 + 1;
           running := rest ++ [head]; started := started q ++ [head] |}
    end.
Proof.
  destruct q_ok as (Hc & Ha & Hle & Hq). intros Hi. unfold settle. rewrite Hi.
  pose proof (lookup_lt_Some _ _ _ Hi) as Hlt.
  unfold process; simpl. rewrite Hc.
  destruct (queue q) as [|head waiting] eqn:Eq; simpl.
  - now rewrite orb_true_r.
  - assert (activeJobs q = 2) as Hfull by (apply Hq; congruence).
    rewrite Hfull. reflexivity.
Qed.

End Invariant.

Lemma queue_run_ok es q : queue_ok q -> queue_ok (queue_run es q).
Proof.
  revert q. induction es as [|e es IH]; intros q Hq; simpl; auto.
  apply IH, queue_step_ok, Hq.
Qed.

(** [process] moves at most the head of the queue to the started calls. *)
Lemma process_fifo q :
  started (process q) ++ queue (process q) = started q ++ queue q.
Proof.
  unfold process.
  destruct (_ || _); [reflexivity|].
  destruct (queue q) as [|videoId rest] eqn:Eq; simpl.
  - now rewrite Eq.
  - now rewrite <- app_assoc.
Qed.

Lemma queue_step_fifo q e :
  started (queue_step q e) ++ queue (queue_step q e)
  = started q ++ queue q ++ submissions [e].
Proof.
  destruct e as [videoId | i fulfilled]; simpl.
  - unfold add. now rewrite process_fifo.
  - unfold settle. destruct (running q !! i).
    + rewrite process_fifo. simpl. now rewrite app_nil_r.
    + now rewrite app_nil_r.
Qed.

Lemma queue_run_fifo es q :
  started (queue_run es q) ++ queue (queue_run es q)
  = started q ++ queue q ++ submissions es.
Proof.
  revert q. induction es as [|e es IH]; intros q; simpl.
  - now rewrite app_nil_r.
  - fold (queue_run es (queue_step q e)). rewrite IH.
    rewrite !app_assoc, queue_step_fifo, <- !app_assoc.
    destruct e; reflexivity.
Qed.


(* ===================================================================== *)
(** * Running the pipeline symbolically                                  *)
(* ===================================================================== *)

(** One step of a run in a world whose script, analysis fault and import
    outcome are not known: split on what the next instruction looks at. *)
Ltac run_step :=
  match goal with
  | |- context [<[?i:=_]> _ !! ?i] => rewrite lookup_insert_eq
  | |- context [bool_decide (?a = ?b)] =>
      first [ rewrite (bool_decide_eq_true_2 (a = b)) by reflexivity
            | rewrite (bool_decide_eq_false_2 (a = b)) by discriminate ]
  | H : forall n, ?fl n = None
    |- context [match ?fl ?n with Some _ => _ | None => _ end] => rewrite (H n)
  | H : ?fl ?n = _
    |- context [match ?fl ?n with Some _ => _ | None => _ end] => rewrite H
  | |- context [match ?fl ?n with Some _ => _ | None => _ end] =>
      is_var fl; destruct (fl n) eqn:?
  | H : ?st !! ?id = _ |- context [?st !! ?id] => rewrite H
  | H : import_fault ?env = _ |- context [import_fault ?env] => rewrite H
  | H : analysis_fault ?env = _ |- context [analysis_fault ?env] => rewrite H
  | |- context [match import_fault ?env with Some _ => _ | None => _ end
                  (mkWorld _ _ _ _ _ _)] => destruct (import_fault env) eqn:?
  | |- context [match analysis_fault ?env with Some _ => _ | None => _ end
                  (mkWorld _ _ _ _ _ _)] =>
      destruct (analysis_fault env) as [[[] ?]|] eqn:?
  end.

Ltac run := cbn -[insert lookup]; repeat (run_step; cbn -[insert lookup]).

(** All the runs of the pipeline on [w], whose record for the id is [v0]:
    the run is named, executed once with the broadcaster and the thumbnail
    outcome split at the start, and its final world and result are put
    back into the goal. *)
Ltac run_cases env id w v0 :=
  let st := fresh "st" in
  let fl := fresh "fl" in
  let n := fresh "n" in
  let i := fresh "i" in
  let tr := fresh "tr" in
  let pq := fresh "pq" in
  let w' := fresh "w'" in
  let r := fresh "r" in
  let Hrun := fresh "Hrun" in
  destruct (processVideo env id (fresh w)) as [w' r] eqn:Hrun;
  revert Hrun;
  destruct w as [st fl n i tr pq];
  unfold reachable in *; cbn [store faults calls io trace processingQueue] in *;
  subst;
  unfold processVideo, processVideo_try, processVideo_catch, fresh;
  destruct i, (generateThumbnail (ffmpeg_run env) (thumbnail_file env (_id v0)))
    eqn:?;
  run;
  intros [= <- <-];
  cbn -[insert lookup].

(* ===================================================================== *)
(** * Consistency of the record                                          *)
(* ===================================================================== *)










(* ===================================================================== *)
(** * Order of the stages and of the progress values                     *)
(* ===================================================================== *)





(* ===================================================================== *)
(** * Failure of a run                                                   *)
(* ===================================================================== *)

(** The store refuses the first save and then the update of the [catch]
    block: the run reports the failure to its caller, but the record is
    not marked and no error event goes out. *)
Lemma unreachable_store_hides_failure :
  let w := sample_world sample_video (refuses [1%nat; 2%nat]) in
  (processVideo sample_env "v1" w).2 = Ok (process_failure "store unreachable") /\
  store (processVideo sample_env "v1" w).1 !! "v1" = Some sample_video /\
  emitted (trace (processVideo sample_env "v1" w).1) = [] /\
  ~ failure_recorded "v1" "store unreachable" (processVideo sample_env "v1" w).1.
Proof.
  repeat split; try reflexivity.
  intros [_ H]. vm_compute in H. discriminate H.
Qed.

Lemma emitted_app tr1 tr2 : emitted (tr1 ++ tr2) = emitted tr1 ++ emitted tr2.
Proof. apply omap_app. Qed.

(** What the [try] block leaves behind when it throws: no error event, a
    record still in the store, an untouched scheduler. *)
Lemma processVideo_try_throws env id w v0 w1 err :
  store w !! id = Some v0 ->
  _id v0 = id ->
  processVideo_try env id (fresh w) = (w1, Throw err) ->
  List.filter is_error_event (emitted (trace w1)) = [] /\
  processingQueue w1 = processingQueue w /\
  io w1 = io w /\
  exists v1, store w1 !! id = Some v1 /\ _id v1 = id.
Proof.
  intros Hv Hid. revert w1 err.
  destruct w as [st fl n i tr pq]. cbn [store] in Hv. subst id.
  unfold processVideo_try, fresh.
  destruct i, (generateThumbnail (ffmpeg_run env) (thumbnail_file env (_id v0)));
    run; intros w1 err' [= <- <-] || intros w1 err' [=].
  all: cbn -[insert lookup]; rewrite ?lookup_insert_eq;
    repeat split; eauto.
Qed.

(** The [catch] block when the store answers its update, and when it does
    not. *)
Lemma processVideo_catch_answered id err w1 v1 :
  faults w1 (calls w1) = None ->
  store w1 !! id = Some v1 ->
  _id v1 = id ->
  io w1 = true ->
  processVideo_catch id err w1 =
    (mkWorld (<[id := mark_failed (err_message err) v1]> (store w1)) (faults w1)
       (S (calls w1)) true
       (trace w1 ++ [Persisted (mark_failed (err_message err) v1);
                     Emitted (error_event id (err_message err))])
       (processingQueue w1),
     Ok (process_failure (err_message err))).
Proof.
  intros Hf Hv Hid Hio. destruct w1 as [st fl n i tr pq]. simpl in *. subst.
  unfold processVideo_catch. cbn -[insert lookup mark_failed].
  rewrite Hf. cbn -[insert lookup mark_failed]. rewrite Hv.
  cbn -[insert lookup mark_failed]. rewrite <- app_assoc. reflexivity.
Qed.

Lemma processVideo_catch_refused id err w1 e :
  faults w1 (calls w1) = Some e ->
  processVideo_catch id err w1 =
    (mkWorld (store w1) (faults w1) (S (calls w1)) (io w1) (trace w1)
       (processingQueue w1),
     Ok (process_failure (err_message err))).
Proof.
  intros Hf. destruct w1 as [st fl n i tr pq]. simpl in *.
  unfold processVideo_catch. cbn -[insert lookup mark_failed].
  rewrite Hf. reflexivity.
Qed.

(** A settlement never puts an id back into the queue. *)
Lemma settle_never_enqueues i fulfilled q :
  queue (settle i fulfilled q) = queue q \/
  queue (settle i fulfilled q) = tail (queue q).
Proof.
  unfold settle. destruct (running q !! i); [|now left].
  unfold process; simpl. destruct (_ || _); [now left|].
  destruct (queue q); [now left | now right].
Qed.

(** C4 (amended).  When an exception escapes the [try] block of a run, the
    run returns the failure with the message of the exception and is not
    started again: the scheduler is left as it was, and a settlement never
    puts an id back into the queue.  If the store answers the update of the
    [catch] block, the record goes to status [failed] and stage [error]
    from wherever it was, [processingError] is the message, and exactly one
    error event is emitted, as the last observation of the run.  If the
    store refuses that update, the record stays as it was last persisted
    and no error event is emitted. *)
Theorem failure_handling env id w v0 w1 err :
  store w !! id = Some v0 ->
  _id v0 = id ->
  io w = true ->
  processVideo_try env id (fresh w) = (w1, Throw err) ->
  let w2 := (processVideo env id (fresh w)).1 in
  let message := err_message err in
  (processVideo env id (fresh w)).2 = Ok (process_failure message) /\
  processingQueue w2 = processingQueue w /\
  (forall i fulfilled q,
      queue (settle i fulfilled q) = queue q \/
      queue (settle i fulfilled q) = tail (queue q)) /\
  match faults w1 (calls w1) with
  | None =>
      exists v1,
        store w1 !! id = Some v1 /\
        store w2 = <[id := mark_failed message v1]> (store w1) /\
        status (mark_failed message v1) = failed /\
        processingStage (mark_failed message v1) = error /\
        processingError (mark_failed message v1) = Some message /\
        processingProgress (mark_failed message v1) = processingProgress v1 /\
        trace w2 = trace w1 ++ [Persisted (mark_failed message v1);
                                Emitted (error_event id message)] /\
        failure_recorded id message w2
  | Some _ =>
      store w2 = store w1 /\
      trace w2 = trace w1 /\
      List.filter is_error_event (emitted (trace w2)) = []
  end.
Proof.
  intros Hv Hid Hio Htry w2 message.
  destruct (processVideo_try_throws env id w v0 w1 err Hv Hid Htry)
    as (Hnone & Hpq & Hio1 & v1 & Hv1 & Hid1).
  assert (processVideo env id (fresh w) = processVideo_catch id err w1) as Hrun.
  { unfold processVideo, try_catch. now rewrite Htry. }
  subst w2. rewrite Hrun.
  destruct (faults w1 (calls w1)) as [e|] eqn:Hf.
  - rewrite (processVideo_catch_refused id err w1 e Hf). cbn.
    repeat split; auto using settle_never_enqueues.
  - rewrite (processVideo_catch_answered id err w1 v1 Hf Hv1 Hid1)
      by (now rewrite Hio1).
    cbn -[insert lookup mark_failed error_event].
    split; [reflexivity|]. split; [assumption|].
    split; [apply settle_never_enqueues|].
    exists v1. unfold failure_recorded.
    cbn -[insert lookup mark_failed error_event].
    repeat split; auto.
    + exists (mark_failed message v1). rewrite lookup_insert_eq. repeat split.
    + rewrite emitted_app, List.filter_app, Hnone. reflexivity.
Qed.

Lemma failure_handling_witness :
  failure_recorded "v1" "store unreachable"
    (processVideo sample_env "v1"
       (fresh (sample_world sample_video (refuses [1%nat]))) ).1.
Proof.
  pose proof (failure_handling sample_env "v1"
                (sample_world sample_video (refuses [1%nat])) sample_video
                (mkWorld {[ "v1" := sample_video ]} (refuses [1%nat]) 2 true []
                   new_ProcessingQueue)
                (Error "store unreachable")
                eq_refl eq_refl eq_refl eq_refl) as (_ & _ & _ & H).
  cbv beta iota zeta in H.
  change (faults _ (calls _)) with (@None JsError) in H.
  destruct H as (v1 & _ & _ & _ & _ & _ & _ & _ & H). exact H.
Defined.

(* ===================================================================== *)
(** * Failures that a run absorbs                                        *)
(* ===================================================================== *)

Lemma extractMetadata_fallback run :
  probe_failed run = true -> extractMetadata run = default_metadata.
Proof.
  unfold extractMetadata. destruct run as [|code [output|]]; simpl; auto.
  - rewrite orb_false_r. now intros ->.
  - now destruct (code =? 0).
Qed.

Lemma generateThumbnail_fallback run outputPath :
  thumb_failed run = true -> generateThumbnail run outputPath = None.
Proof.
  unfold generateThumbnail. destruct run as [|code]; simpl; auto. now intros ->.
Qed.

(** C5.  A failure of the metadata extractor (error event, non-zero exit
    code, or a report that does not parse) or of the thumbnail generator
    (error event or non-zero exit code) does not fail the item: the
    extractor yields the zero metadata, the generator yields no thumbnail,
    and the run, with the store reachable and the analyzer module loaded,
    ends with the record completed, stage [done], progress 100; after a
    metadata failure its duration is 0 and its dimensions are 0 by 0,
    after a thumbnail failure its thumbnail path is left as it was. *)
Theorem subprocess_failure_absorbed env id w v0 :
  store w !! id = Some v0 ->
  _id v0 = id ->
  reachable w ->
  import_fault env = None ->
  probe_failed (ffprobe_run env) = true \/ thumb_failed (ffmpeg_run env) = true ->
  exists v,
    (processVideo env id (fresh w)).2 = Ok (process_success v) /\
    store (processVideo env id (fresh w)).1 !! id = Some v /\
    status v = completed /\
    processingStage v = done /\
    processingProgress v = 100 /\
    processingError v = processingError v0 /\
    (probe_failed (ffprobe_run env) = true ->
       extractMetadata (ffprobe_run env) = default_metadata /\
       duration v = 0%Q /\ resolution v = (0, 0)) /\
    (thumb_failed (ffmpeg_run env) = true ->
       generateThumbnail (ffmpeg_run env) (thumbnail_file env id) = None /\
       thumbnailPath v = thumbnailPath v0).
Proof.
  intros Hv Hid Hreach Himport _.
  run_cases env id w v0.
  all: eexists; split; [reflexivity|].
  all: rewrite ?lookup_insert_eq; split; [reflexivity|].
  all: cbn; repeat (split; [reflexivity|]).
  all: split; intros Hfail.
  all: try (rewrite (extractMetadata_fallback _ Hfail); repeat split; reflexivity).
  all: try (split; reflexivity).
  all: match goal with
       | H : generateThumbnail _ _ = Some _ |- _ =>
           rewrite (generateThumbnail_fallback _ _ Hfail) in H; discriminate H
       end.
Qed.

Lemma subprocess_failure_absorbed_witness :
  exists v,
    (processVideo sample_env "v1"
       (fresh (sample_world sample_video always_answers))).2
      = Ok (process_success v) /\
    status v = completed /\ duration v = 0%Q.
Proof.
  destruct (subprocess_failure_absorbed sample_env "v1"
              (sample_world sample_video always_answers) sample_video
              eq_refl eq_refl (fun n => eq_refl) eq_refl (or_introl eq_refl))
    as (v & Hr & _ & Hs & _ & _ & _ & Hm & _).
  exists v. split; [exact Hr|]. split; [exact Hs|].
  destruct (Hm eq_refl) as (_ & Hd & _). exact Hd.
Defined.

Lemma analyzeSensitivity_absorbs env phase err videoPath videoId w :
  analysis_fault env = Some (phase, err) ->
  (analyzeSensitivity env videoPath videoId w).2 = Ok (pending_result env err).
Proof.
  intros Hfault. destruct w as [st fl n i tr pq].
  destruct phase, i; cbn; rewrite Hfault; cbn;
    repeat (first [ rewrite bool_decide_eq_true_2 by reflexivity
                  | rewrite bool_decide_eq_false_2 by discriminate ]; cbn);
    reflexivity.
Qed.

(** C6.  When the analysis raises an error, in whichever phase,
    [analyzeSensitivity] does not throw: it returns classification
    [pending], confidence 0, no flags, and the message of the error in its
    details.  The run, with the store reachable and the analyzer module
    loaded, then persists the stage [finalizing] with that result,
    announces it, and completes: record completed, stage [done]. *)
Theorem analysis_failure_absorbed env id w v0 phase err :
  analysis_fault env = Some (phase, err) ->
  store w !! id = Some v0 ->
  _id v0 = id ->
  reachable w ->
  import_fault env = None ->
  (forall videoPath w',
      (analyzeSensitivity env videoPath id w').2 = Ok (pending_result env err)) /\
  classification (pending_result env err) = class_pending /\
  confidence (pending_result env err) = 0 /\
  flags (pending_result env err) = [] /\
  details (pending_result env err) = details_error (err_message err) /\
  exists v4,
    In v4 (persisted (trace (processVideo env id (fresh w)).1)) /\
    processingStage v4 = finalizing /\
    sensitivityResult v4 = pending_result env err /\
    (processVideo env id (fresh w)).2 = Ok (process_success (finalize v4)) /\
    store (processVideo env id (fresh w)).1 !! id = Some (finalize v4) /\
    status (finalize v4) = completed /\
    processingStage (finalize v4) = done /\
    sensitivityResult (finalize v4) = pending_result env err /\
    (io w = true ->
     exists e, In e (emitted (trace (processVideo env id (fresh w)).1)) /\
               ev_stage e = finalizing).
Proof.
  intros Hfault Hv Hid Hreach Himport.
  split; [intros; now apply analyzeSensitivity_absorbs with phase|].
  repeat (split; [reflexivity|]).
  destruct phase; run_cases env id w v0.
  all: match goal with
       | |- context [Ok (process_success (finalize ?x)) = _] => exists x
       end.
  all: split; [simpl; tauto|].
  all: rewrite ?lookup_insert_eq.
  all: repeat (split; [reflexivity|]).
  all: intros Hio; try discriminate Hio.
  all: exists (progress_event (_id v0) processing finalizing 90 "Finalizing...");
    split; [simpl; tauto | reflexivity].
Qed.

Lemma analysis_failure_absorbed_witness :
  let env :=
    mkEnv probe_error thumb_error None
      (Some (frame_analysis, Error "model crashed"))
      default_sensitivityResult 7 "/srv" in
  exists v4,
    (processVideo env "v1" (fresh (sample_world sample_video always_answers))).2
      = Ok (process_success (finalize v4)) /\
    sensitivityResult (finalize v4) = pending_result env (Error "model crashed").
Proof.
  intros env.
  destruct (analysis_failure_absorbed env "v1"
              (sample_world sample_video always_answers) sample_video
              frame_analysis (Error "model crashed")
              eq_refl eq_refl eq_refl (fun n => eq_refl) eq_refl)
    as (_ & _ & _ & _ & _ & v4 & _ & _ & _ & Hr & _ & _ & _ & Hs & _).
  exists v4. split; [exact Hr | exact Hs].
Defined.

(* ===================================================================== *)
(** * Re-submission                                                      *)
(* ===================================================================== *)

(** A failed item is re-submitted and its new run succeeds: the events
    begin with [extracting_metadata]; none announces [queued]. *)
Lemma rerun_never_announces_queued :
  let w1 := (reprocess "v1" alice (sample_world sample_failed always_answers)).1 in
  let tr := trace (processVideo sample_env "v1" (fresh w1)).1 in
  compress (event_stages tr) =
    [extracting_metadata; generating_thumbnail; analyzing_content; finalizing; done] /\
  ~ announces_full_run tr.
Proof.
  split; [reflexivity|].
  intros [H | (e & Hlast & Hstage)].
  - vm_compute in H. discriminate H.
  - vm_compute in Hlast. injection Hlast as <-. discriminate Hstage.
Qed.

(** With the pool full, as many settlements as there are ids waiting start
    all of them, in order. *)
Lemma settlements_drain l q :
  queue_ok q ->
  Forall (fun ib : nat * bool => (ib.1 < 2)%nat) l ->
  (length l <= length (queue q))%nat ->
  let q' := queue_run (settlements l) q in
  queue q' = drop (length l) (queue q) /\
  started q' = started q ++ take (length l) (queue q).
Proof.
  revert q. induction l as [|[i b] l IH]; intros q Hok Hl Hlen; simpl.
  - split; [reflexivity | now rewrite app_nil_r].
  - apply Forall_cons in Hl as [Hi Hl]. simpl in Hi, Hlen.
    destruct (queue q) as [|head waiting] eqn:Eq; [simpl in Hlen; lia|].
    pose proof Hok as (Hc & Ha & Hle & Hq).
    assert (activeJobs q = 2) as Hfull by (apply Hq; congruence).
    destruct (running q !! i) as [x|] eqn:Hx.
    2:{ apply lookup_ge_None in Hx. lia. }
    pose proof (settle_starts_head q Hok i b x Hx) as Hs. rewrite Eq in Hs.
    pose proof (settle_ok q Hok i b) as Hok1.
    assert (queue (settle i b q) = waiting) as Hq1 by now rewrite Hs.
    assert (started (settle i b q) = started q ++ [head]) as Hs1 by now rewrite Hs.
    simpl in Hlen.
    destruct (IH (settle i b q) Hok1 Hl) as [IHq IHs]; [rewrite Hq1; lia|].
    fold (queue_run (settlements l) (settle i b q)).
    rewrite IHq, IHs, Hq1, Hs1. simpl. now rewrite <- app_assoc.
Qed.

(** An id handed to the scheduler is started once the calls ahead of it
    have settled. *)
Lemma add_eventually_started videoId q l :
  queue_ok q ->
  Forall (fun ib : nat * bool => (ib.1 < 2)%nat) l ->
  length l = length (queue (add videoId q)) ->
  started (queue_run (settlements l) (add videoId q))
  = started q ++ queue q ++ [videoId].
Proof.
  intros Hok Hl Hlen.
  destruct (settlements_drain l (add videoId q)) as [_ Hs];
    [now apply add_ok | assumption | lia |].
  rewrite Hs, Hlen, firstn_all.
  unfold add. now rewrite process_fifo.
Qed.

(** The events of a run, whatever happens to it. *)
Lemma run_events env id w v0 :
  store w !! id = Some v0 ->
  _id v0 = id ->
  processingStage v0 = queued ->
  let tr := trace (processVideo env id (fresh w)).1 in
  let r := (processVideo env id (fresh w)).2 in
  Forall (fun e => ev_stage e <> queued) (emitted tr) /\
  (forall v, r = Ok (process_success v) ->
     item_stages v0 tr = full_sequence /\
     (io w = true -> compress (event_stages tr) = tail full_sequence)) /\
  (forall m, r = Ok (process_failure m) ->
     List.filter is_error_event (emitted tr) = [] \/
     exists e, last (emitted tr) = Some e /\ ev_stage e = error).
Proof.
  intros Hv Hid Hstage tr r. subst tr r.
  unfold item_stages, event_stages. rewrite Hstage.
  run_cases env id w v0.
  all: split; [repeat (apply List.Forall_cons; [discriminate|]); apply List.Forall_nil|].
  all: split;
    [ intros v Hr;
      first [ discriminate Hr
            | split; [reflexivity | intros Hio; first [reflexivity | discriminate Hio]] ]
    | intros m Hr;
      first [ discriminate Hr
            | left; reflexivity
            | right; eexists; split; reflexivity ] ].
Qed.

(** C7 (amended).  Re-submission by the owner or an administrator, with the
    store reachable, resets the record, whatever its status (so also when
    it is completed or failed), to status [pending], stage [queued],
    progress 0 and no [processingError], persists that version under the
    same id without creating a record, and hands the id to the scheduler,
    which starts it once the calls ahead of it have settled.  The new run
    takes the record through the whole sequence of stages from [queued]
    to [done] and emits the events from [extracting_metadata] to [done];
    no event announces [queued].  A run that fails ends its events with
    an error event, unless the failure could not be recorded and no error
    event was emitted. *)
Theorem reprocess_restarts env id user w v0 :
  store w !! id = Some v0 ->
  _id v0 = id ->
  user_role user = "admin" \/ owner v0 = user_id user ->
  faults w (calls w) = None ->
  faults w (S (calls w)) = None ->
  queue_ok (processingQueue w) ->
  let w1 := (reprocess id user (fresh w)).1 in
  let v1 := reset_processing v0 in
  (reprocess id user (fresh w)).2 = Ok (json 200 true "Video re-processing started") /\
  (status v1 = pending /\ processingStage v1 = queued /\
   processingProgress v1 = 0 /\ processingError v1 = None /\ _id v1 = id) /\
  store w1 = <[id := v1]> (store w) /\
  dom (store w1) = dom (store w) /\
  trace w1 = [Persisted v1] /\
  processingQueue w1 = add id (processingQueue w) /\
  (forall l,
      Forall (fun ib : nat * bool => (ib.1 < 2)%nat) l ->
      length l = length (queue (processingQueue w1)) ->
      started (queue_run (settlements l) (processingQueue w1))
      = started (processingQueue w) ++ queue (processingQueue w) ++ [id]) /\
  let tr := trace (processVideo env id (fresh w1)).1 in
  let r := (processVideo env id (fresh w1)).2 in
  Forall (fun e => ev_stage e <> queued) (emitted tr) /\
  (forall v, r = Ok (process_success v) ->
     item_stages v1 tr = full_sequence /\
     (io w = true -> compress (event_stages tr) = tail full_sequence)) /\
  (forall m, r = Ok (process_failure m) ->
     List.filter is_error_event (emitted tr) = [] \/
     exists e, last (emitted tr) = Some e /\ ev_stage e = error).
Proof.
  intros Hv Hid Hauth Hf1 Hf2 Hq w1 v1.
  assert (reprocess id user (fresh w) =
            (mkWorld (<[id := v1]> (store w)) (faults w) (S (S (calls w))) (io w)
               [Persisted v1] (add id (processingQueue w)),
             Ok (json 200 true "Video re-processing started"))) as Hre.
  { destruct w as [st fl n i tr pq]. simpl in *. subst id.
    unfold reprocess, fresh. cbn -[insert lookup reset_processing].
    rewrite Hf1. cbn -[insert lookup reset_processing]. rewrite Hv.
    cbn -[insert lookup reset_processing].
    assert (negb (bool_decide (user_role user = "admin"))
            && negb (bool_decide (owner v0 = user_id user)) = false) as ->.
    { destruct Hauth as [Ha | Ho].
      - rewrite (bool_decide_eq_true_2 _ Ha). reflexivity.
      - rewrite (bool_decide_eq_true_2 _ Ho). apply andb_false_r. }
    cbn -[insert lookup reset_processing]. rewrite Hf2. reflexivity. }
  subst w1. rewrite Hre. cbn [fst snd store trace processingQueue].
  split; [reflexivity|].
  split; [subst v1; repeat split; assumption|].
  split; [reflexivity|].
  split.
  { apply dom_insert_lookup_L. rewrite Hv. eauto. }
  split; [reflexivity|].
  split; [reflexivity|].
  split; [intros l Hl Hlen; now apply add_eventually_started|].
  pose proof (run_events env id
                (mkWorld (<[id := v1]> (store w)) (faults w) (S (S (calls w))) (io w)
                   [Persisted v1] (add id (processingQueue w))) v1) as Hrun.
  cbn [store io] in Hrun.
  apply Hrun.
  - apply lookup_insert_eq.
  - exact Hid.
  - reflexivity.
Qed.

Lemma reprocess_restarts_witness :
  let w := sample_world sample_failed always_answers in
  store (reprocess "v1" alice (fresh w)).1 = <[ "v1" := reset_processing sample_failed ]> (store w) /\
  processingQueue (reprocess "v1" alice (fresh w)).1 = add "v1" (processingQueue w).
Proof.
  intros w.
  destruct (reprocess_restarts sample_env "v1" alice w sample_failed
              eq_refl eq_refl (or_intror eq_refl) eq_refl eq_refl
              new_ProcessingQueue_ok)
    as (_ & _ & Hs & _ & _ & Hq & _).
  split; [exact Hs | exact Hq].
Defined.

(* ===================================================================== *)
(** * The byte-range media server                                        *)
(* ===================================================================== *)

(** ** Reading the header *)

Lemma split_parts_no_sep sep s p :
  In p (split sep s) -> contains sep p = false.
Proof.
  revert p. induction s as [|c s IH]; intros p; simpl.
  - intros [<- | []]. reflexivity.
  - destruct (Ascii.eqb c sep) eqn:Ec.
    + intros [<- | Hin]; [reflexivity | now apply IH].
    + destruct (split sep s) as [|q qs] eqn:Es.
      * intros [<- | []]. simpl. now rewrite Ec.
      * intros [<- | Hin].
        -- simpl. rewrite Ec. apply IH. now left.
        -- apply IH. now right.
Qed.

Lemma skip_space_contains c s :
  contains c s = false -> contains c (skip_space s) = false.
Proof.
  induction s as [|a s IH]; simpl; [reflexivity|].
  intros H. apply orb_false_elim in H as [Ha Hs].
  destruct (is_js_space a); [now apply IH|].
  simpl. now rewrite Ha, Hs.
Qed.

Lemma digit_of_nonneg c d : digit_of c = Some d -> 0 <= d.
Proof.
  unfold digit_of.
  destruct (N.leb_spec 48 (Ascii.N_of_ascii c)); simpl; [|discriminate].
  destruct (_ <=? _)%N; [|discriminate]. intros [= <-]. lia.
Qed.

Lemma read_digits_nonneg s acc n :
  (forall a, acc = Some a -> 0 <= a) ->
  read_digits acc s = Some n -> 0 <= n.
Proof.
  revert acc. induction s as [|c s IH]; intros acc Hacc; simpl.
  - auto.
  - destruct (digit_of c) as [d|] eqn:Ed; [|auto].
    apply IH. intros a [= <-].
    apply digit_of_nonneg in Ed.
    destruct acc as [a|]; simpl; [specialize (Hacc a eq_refl)|]; lia.
Qed.

(** A string without a minus sign parses to NaN or to a number that is
    not negative. *)
Lemma parseInt_nonneg s z :
  contains "-" s = false -> parseInt s = Int z -> 0 <= z.
Proof.
  intros Hs. apply (skip_space_contains "-" s) in Hs.
  unfold parseInt. destruct (skip_space s) as [|c r]; simpl.
  - discriminate.
  - simpl in Hs. apply orb_false_elim in Hs as [Hc _]. rewrite Hc.
    destruct (Ascii.eqb c "+").
    + destruct (read_digits None r) as [n|] eqn:En; [|discriminate].
      intros [= <-]. apply (read_digits_nonneg r None n); [discriminate | exact En].
    + destruct (read_digits None (String c r)) as [n|] eqn:En; [|discriminate].
      intros [= <-].
      apply (read_digits_nonneg (String c r) None n); [discriminate | exact En].
Qed.

Lemma range_part_no_dash range i :
  contains "-" (default "" (range_parts range !! i)) = false.
Proof.
  destruct (range_parts range !! i) as [p|] eqn:Hp; simpl; [|reflexivity].
  apply (split_parts_no_sep "-" (replace_first "bytes=" range)).
  apply list_elem_of_In. eapply list_elem_of_lookup_2. exact Hp.
Qed.

Lemma range_start_nonneg range s : range_start range = Int s -> 0 <= s.
Proof. apply parseInt_nonneg, range_part_no_dash. Qed.

Lemma range_end_default range fileSize :
  truthy (range_parts range !! 1%nat) = false ->
  range_end range fileSize = Int (fileSize - 1).
Proof. unfold range_end. now intros ->. Qed.

(** ** The response to a request with a range *)

Lemma createReadStream_throws content options e :
  createReadStream content options = Throw e -> err_name e = "RangeError".
Proof.
  unfold createReadStream.
  destruct options as [[[|s] [|t]]|]; try (intros [= <-]; reflexivity); try discriminate.
  destruct (_ && _ && _); [discriminate | intros [= <-]; reflexivity].
Qed.

Lemma createReadStream_span content s e :
  0 <= s -> s <= e -> e <= MAX_SAFE_INTEGER ->
  createReadStream content (Some (Int s, Int e))
  = Ok (take (Z.to_nat (e - s + 1)) (drop (Z.to_nat s) content)).
Proof.
  intros Hs Hse He. unfold createReadStream, validateInteger.
  assert ((0 <=? s) = true) as -> by lia.
  assert ((s <=? MAX_SAFE_INTEGER) = true) as -> by lia.
  assert ((0 <=? e) = true) as -> by lia.
  assert ((e <=? MAX_SAFE_INTEGER) = true) as -> by lia.
  assert ((s <=? e) = true) as -> by lia.
  reflexivity.
Qed.

(** The handler on a completed item whose file exists, for a user with
    access, when the store is reachable and the request has a range. *)
Lemma stream_ranged files id user w v content c r :
  store w !! id = Some v ->
  canAccess v (user_id user) (user_role user) = true ->
  status v = completed ->
  files !! filePath v = Some content ->
  reachable w ->
  let range := String c r in
  let fileSize := Z.of_nat (length content) in
  let start := range_start range in
  let end_ := range_end range fileSize in
  (stream files id user (Some range) w).2 =
    Ok (if js_ge start (Int fileSize)
        then mkResponse 416 [] (body_text "Requested range not satisfiable")
        else match createReadStream content (Some (start, end_)) with
             | Ok file =>
                 mkResponse 206 (range_headers start end_ fileSize (mimetype v))
                   (body_stream file)
             | Throw _ => json 500 false "Server error during streaming"
             end).
Proof.
  intros Hv Hacc Hst Hfile Hreach range fileSize start end_.
  destruct w as [st fl n i tr pq]. unfold reachable in Hreach. simpl in Hv, Hreach.
  unfold stream.
  cbn -[insert lookup range_start range_end createReadStream js_to_string
        Z_to_string String.app canAccess js_ge].
  rewrite (Hreach n).
  cbn -[insert lookup range_start range_end createReadStream js_to_string
        Z_to_string String.app canAccess js_ge].
  rewrite Hv.
  cbn -[insert lookup range_start range_end createReadStream js_to_string
        Z_to_string String.app canAccess js_ge].
  rewrite Hacc, Hst, (bool_decide_eq_true_2 _ eq_refl).
  cbn -[insert lookup range_start range_end createReadStream js_to_string
        Z_to_string String.app canAccess js_ge].
  rewrite Hfile.
  cbn -[insert lookup range_start range_end createReadStream js_to_string
        Z_to_string String.app canAccess js_ge].
  fold range fileSize start end_.
  destruct (bool_decide (Some range = Some "bytes=0-"));
    cbn -[insert lookup range_start range_end createReadStream js_to_string
          Z_to_string String.app canAccess js_ge];
    rewrite ?(Hreach (S n));
    cbn -[insert lookup range_start range_end createReadStream js_to_string
          Z_to_string String.app canAccess js_ge];
    rewrite ?Hv;
    cbn -[insert lookup range_start range_end createReadStream js_to_string
          Z_to_string String.app canAccess js_ge];
    fold range fileSize start end_.
  all: destruct (js_ge start (Int fileSize)); [reflexivity|].
  all: cbn -[insert lookup range_start range_end createReadStream js_to_string
             Z_to_string String.app canAccess js_ge].
  all: destruct (createReadStream content (Some (start, end_))) as [file | e] eqn:Ecr;
    cbn -[insert lookup range_start range_end createReadStream js_to_string
          Z_to_string String.app canAccess js_ge];
    [reflexivity|].
  all: rewrite (createReadStream_throws _ _ _ Ecr).
  all: reflexivity.
Qed.

Lemma span_length (content : list Byte.byte) s e :
  0 <= s -> s <= e -> s <= Z.of_nat (length content) ->
  Z.of_nat (length (take (Z.to_nat (e - s + 1)) (drop (Z.to_nat s) content)))
  = Z.min (e - s + 1) (Z.of_nat (length content) - s).
Proof.
  intros Hs Hse Hsize. rewrite length_take, length_drop. lia.
Qed.

(** The partial response, when the offsets are ones the file stream
    accepts. *)
Lemma stream_partial files id user w v content c r s e :
  store w !! id = Some v ->
  canAccess v (user_id user) (user_role user) = true ->
  status v = completed ->
  files !! filePath v = Some content ->
  reachable w ->
  let range := String c r in
  let sizeBytes := Z.of_nat (length content) in
  range_start range = Int s ->
  range_end range sizeBytes = Int e ->
  s < sizeBytes -> s <= e -> e <= MAX_SAFE_INTEGER ->
  exists resp,
    (stream files id user (Some range) w).2 = Ok resp /\
    res_status resp = 206 /\
    header "Content-Range" resp =
      Some ("bytes " +:+ Z_to_string s +:+ "-" +:+ Z_to_string e +:+ "/"
            +:+ Z_to_string sizeBytes) /\
    header "Content-Length" resp = Some (Z_to_string (e - s + 1)) /\
    body_bytes resp =
      Some (take (Z.to_nat (e - s + 1)) (drop (Z.to_nat s) content)).
Proof.
  intros Hv Hacc Hst Hfile Hreach range sizeBytes Hs He Hlt Hse Hmax.
  pose proof (range_start_nonneg range s Hs) as Hs0.
  pose proof (stream_ranged files id user w v content c r Hv Hacc Hst Hfile Hreach)
    as Hresp.
  cbv zeta in Hresp. fold range sizeBytes in Hresp.
  rewrite Hs, He in Hresp. simpl js_ge in Hresp.
  assert ((sizeBytes <=? s) = false) as Hcmp by lia. rewrite Hcmp in Hresp.
  rewrite (createReadStream_span content s e Hs0 Hse Hmax) in Hresp.
  eexists. split; [exact Hresp|].
  repeat split; reflexivity.
Qed.

(** The request [bytes=0-1999] on the 1000-byte sample: status 206 and a
    declared length of 2000, for a body of 1000 bytes. *)
Lemma span_beyond_file_not_served :
  let r := (stream sample_files "v1" alice (Some "bytes=0-1999")
              (sample_world sample_completed always_answers)).2 in
  range_start "bytes=0-1999" = Int 0 /\
  range_end "bytes=0-1999" 1000 = Int 1999 /\
  exists resp,
    r = Ok resp /\
    res_status resp = 206 /\
    header "Content-Length" resp = Some "2000" /\
    (length <$> body_bytes resp) = Some 1000%nat /\
    ~ serves_span (replicate 1000 Byte.x00) 0 1999 resp.
Proof.
  split; [reflexivity|]. split; [reflexivity|].
  eexists. split; [vm_compute; reflexivity|].
  split; [reflexivity|]. split; [reflexivity|]. split; [reflexivity|].
  intros (_ & _ & _ & bytes & Hb & Hlen).
  vm_compute in Hb. injection Hb as <-. vm_compute in Hlen. discriminate Hlen.
Qed.

(** C8 (amended).  On a completed item, for a request whose range header
    gives a start that parses to the number [s] and an end that is the
    number [e] (an end that is left out is [sizeBytes - 1]): if
    [s >= sizeBytes] the answer is 416; if [s < sizeBytes], [s <= e] and
    [e] is an offset the file stream accepts, the answer is 206 with
    [Content-Range: bytes s-e/sizeBytes] and [Content-Length: e - s + 1],
    and the body holds the bytes from [s] to [e] that the file has:
    exactly that span when [e < sizeBytes]. *)
Theorem range_request_served files id user w v content c r s e :
  store w !! id = Some v ->
  canAccess v (user_id user) (user_role user) = true ->
  status v = completed ->
  files !! filePath v = Some content ->
  reachable w ->
  let range := String c r in
  let sizeBytes := Z.of_nat (length content) in
  let response := (stream files id user (Some range) w).2 in
  range_start range = Int s ->
  range_end range sizeBytes = Int e ->
  (truthy (range_parts range !! 1%nat) = false -> e = sizeBytes - 1) /\
  (sizeBytes <= s ->
     response = Ok (mkResponse 416 [] (body_text "Requested range not satisfiable"))) /\
  (s < sizeBytes -> s <= e -> e <= MAX_SAFE_INTEGER ->
     exists resp,
       response = Ok resp /\
       res_status resp = 206 /\
       header "Content-Range" resp =
         Some ("bytes " +:+ Z_to_string s +:+ "-" +:+ Z_to_string e +:+ "/"
               +:+ Z_to_string sizeBytes) /\
       header "Content-Length" resp = Some (Z_to_string (e - s + 1)) /\
       body_bytes resp =
         Some (take (Z.to_nat (e - s + 1)) (drop (Z.to_nat s) content)) /\
       (e < sizeBytes -> serves_span content s e resp)).
Proof.
  intros Hv Hacc Hst Hfile Hreach range sizeBytes response Hs He.
  pose proof (range_start_nonneg range s Hs) as Hs0.
  split.
  { intros Hdef. rewrite (range_end_default range sizeBytes Hdef) in He.
    now injection He as <-. }
  split.
  { intros Hge.
    pose proof (stream_ranged files id user w v content c r Hv Hacc Hst Hfile Hreach)
      as Hresp.
    cbv zeta in Hresp. fold range sizeBytes response in Hresp.
    rewrite Hs in Hresp. rewrite Hresp. simpl.
    assert ((sizeBytes <=? s) = true) as -> by lia. reflexivity. }
  intros Hlt Hse Hmax.
  destruct (stream_partial files id user w v content c r s e
              Hv Hacc Hst Hfile Hreach Hs He Hlt Hse Hmax)
    as (resp & Hr & Hstatus & Hcr & Hcl & Hb).
  exists resp.
  split; [exact Hr|]. split; [exact Hstatus|]. split; [exact Hcr|].
  split; [exact Hcl|]. split; [exact Hb|].
  intros Hin. unfold serves_span.
  split; [exact Hstatus|]. split; [exact Hcr|]. split; [exact Hcl|].
  eexists. split; [exact Hb|].
  rewrite span_length by (fold sizeBytes; lia). fold sizeBytes. lia.
Qed.

(** [bytes=100-199] on the 1000-byte sample: 206,
    [Content-Range: bytes 100-199/1000], a body of 100 bytes. *)
Lemma range_request_served_witness :
  exists resp,
    (stream sample_files "v1" alice (Some "bytes=100-199")
       (sample_world sample_completed always_answers)).2 = Ok resp /\
    res_status resp = 206 /\
    header "Content-Range" resp = Some "bytes 100-199/1000" /\
    header "Content-Length" resp = Some "100" /\
    (length <$> body_bytes resp) = Some 100%nat.
Proof.
  destruct (range_request_served sample_files "v1" alice
              (sample_world sample_completed always_answers) sample_completed
              (replicate 1000 Byte.x00) "b" "ytes=100-199" 100 199
              eq_refl eq_refl eq_refl eq_refl (fun n => eq_refl) eq_refl eq_refl)
    as (_ & _ & H).
  destruct H as (resp & Hr & Hst & Hcr & Hcl & Hb & _); [reflexivity | discriminate | discriminate |].
  exists resp. split; [exact Hr|]. split; [exact Hst|].
  split; [exact Hcr|]. split; [exact Hcl|].
  rewrite Hb. reflexivity.
Defined.

(** [bytes=2000-] on the same item: 416. *)
Lemma range_beyond_file_416 :
  (stream sample_files "v1" alice (Some "bytes=2000-")
     (sample_world sample_completed always_answers)).2
  = Ok (mkResponse 416 [] (body_text "Requested range not satisfiable")).
Proof. reflexivity. Qed.

(** A start that does not parse passes the validation of the range and
    makes the file stream throw: the answer is 500, never 416. *)
Lemma unparsable_start_is_server_error files id user w v content c r :
  store w !! id = Some v ->
  canAccess v (user_id user) (user_role user) = true ->
  status v = completed ->
  files !! filePath v = Some content ->
  reachable w ->
  range_start (String c r) = NaN ->
  (stream files id user (Some (String c r)) w).2
  = Ok (json 500 false "Server error during streaming").
Proof.
  intros Hv Hacc Hst Hfile Hreach Hs.
  rewrite (stream_ranged files id user w v content c r Hv Hacc Hst Hfile Hreach).
  cbv zeta. rewrite Hs. reflexivity.
Qed.

(** C9.  The code at the malformed headers [bytes=abc-] and [bytes=-500],
    on the completed 1000-byte sample: the start parses to NaN and the
    answer is 500, where the claim asks for 416; a start beyond the file,
    [bytes=2000-], is answered with 416. *)
Theorem malformed_range_answered_500 :
  let get range :=
    res_status <$>
      match (stream sample_files "v1" alice (Some range)
               (sample_world sample_completed always_answers)).2 with
      | Ok resp => Some resp
      | Throw _ => None
      end in
  range_start "bytes=abc-" = NaN /\
  range_start "bytes=-500" = NaN /\
  get "bytes=abc-" = Some 500 /\
  get "bytes=-500" = Some 500 /\
  get "bytes=2000-" = Some 416.
Proof. repeat split; reflexivity. Qed.



(* ===================================================================== *)
(** * More on the scheduler                                              *)
(* ===================================================================== *)

(** X1.  The scheduler never lets an id wait while a slot is free: in every
    history, a non-empty queue means that two calls are being awaited. *)
Theorem scheduler_work_conserving (es : list QueueEvent) :
  let q := queue_run es new_ProcessingQueue in
  queue q <> [] -> length (running q) = 2%nat.
Proof.
  intros q Hne.
  destruct (queue_run_ok es _ new_ProcessingQueue_ok) as (Hc & Ha & Hle & Hq).
  fold q in Ha, Hq. apply Hq in Hne. lia.
Qed.

Lemma scheduler_work_conserving_witness :
  length (running (queue_run [submitted "a"; submitted "b"; submitted "c"]
                     new_ProcessingQueue)) = 2%nat.
Proof.
  apply (scheduler_work_conserving [submitted "a"; submitted "b"; submitted "c"]).
  vm_compute. discriminate.
Defined.

(** X2.  Nothing submitted is lost or run twice: after any history, as
    many settlements as there are ids waiting empty the queue, and the
    calls made are then exactly the submissions, in their order. *)
Theorem scheduler_drains (es : list QueueEvent) (l : list (nat * bool)) :
  let q := queue_run es new_ProcessingQueue in
  Forall (fun ib : nat * bool => (ib.1 < 2)%nat) l ->
  length l = length (queue q) ->
  queue (queue_run (settlements l) q) = [] /\
  started (queue_run (settlements l) q) = submissions es.
Proof.
  intros q Hl Hlen.
  pose proof (queue_run_ok es _ new_ProcessingQueue_ok) as Hok. fold q in Hok.
  destruct (settlements_drain l q Hok Hl) as [Hq Hs]; [lia|].
  split.
  - rewrite Hq, Hlen. apply drop_all.
  - rewrite Hs, Hlen, firstn_all. unfold q. now rewrite queue_run_fifo.
Qed.

Lemma scheduler_drains_witness :
  started (queue_run (settlements [(0%nat, true); (1%nat, false)])
             (queue_run [submitted "a"; submitted "b"; submitted "c"; submitted "d"]
                new_ProcessingQueue))
  = ["a"; "b"; "c"; "d"].
Proof.
  apply (scheduler_drains
           [submitted "a"; submitted "b"; submitted "c"; submitted "d"]
           [(0%nat, true); (1%nat, false)]).
  - repeat constructor.
  - reflexivity.
Defined.

(* ===================================================================== *)
(** * More on the pipeline                                               *)
(* ===================================================================== *)

(** X3.  A run on an id that has no record: when the store answers the
    lookup, the run returns the failure 'Video not found', writes nothing
    and leaves the scheduler alone; the error event still goes out (when
    the socket server exists and the store answers the update of the
    [catch] block, which finds nothing to update). *)
Theorem processVideo_missing_record env id w :
  store w !! id = None ->
  faults w (calls w) = None ->
  let w' := (processVideo env id (fresh w)).1 in
  (processVideo env id (fresh w)).2 = Ok (process_failure "Video not found") /\
  store w' = store w /\
  processingQueue w' = processingQueue w /\
  trace w' = match faults w (S (calls w)) with
             | None => if io w then [Emitted (error_event id "Video not found")]
                       else []
             | Some _ => []
             end.
Proof.
  intros Hv Hf. destruct w as [st fl n i tr pq]. simpl in Hv, Hf.
  unfold processVideo, processVideo_try, processVideo_catch, fresh.
  cbn -[insert lookup]. rewrite Hf. cbn -[insert lookup]. rewrite Hv.
  cbn -[insert lookup].
  destruct (fl (S n)); cbn -[insert lookup]; [auto|].
  rewrite Hv. cbn -[insert lookup]. destruct i; cbn; auto.
Qed.

Lemma processVideo_missing_record_witness :
  (processVideo sample_env "v2" (fresh (sample_world sample_video always_answers))).2
  = Ok (process_failure "Video not found").
Proof.
  apply (processVideo_missing_record sample_env "v2"
           (sample_world sample_video always_answers)); reflexivity.
Defined.

(** X4.  A run, however it ends, changes only the processing fields of its
    own record: every other record of the store is as before; the record
    itself, every version persisted and every event keep the id; and the
    file path, type, size, owner, sharing list and visibility of the record
    are never written.  The run does not touch the scheduler either. *)
Theorem run_keeps_identity env id w v0 :
  store w !! id = Some v0 ->
  _id v0 = id ->
  let w' := (processVideo env id (fresh w)).1 in
  (forall k, k <> id -> store w' !! k = store w !! k) /\
  (exists v, store w' !! id = Some v /\ same_identity v0 v /\ views v = views v0) /\
  Forall (same_identity v0) (persisted (trace w')) /\
  Forall (fun e => ev_videoId e = id) (emitted (trace w')) /\
  processingQueue w' = processingQueue w.
Proof.
  intros Hv Hid.
  run_cases env id w v0.
  all: split; [intros k Hk; rewrite ?lookup_insert_ne by (cbn; congruence);
               reflexivity|].
  all: split; [rewrite ?lookup_insert_eq, ?Hv; eexists; split; [reflexivity|];
               split; [repeat split|reflexivity]|].
  all: split; [repeat (apply List.Forall_cons; [repeat split|]);
               apply List.Forall_nil|].
  all: split; [repeat (apply List.Forall_cons; [reflexivity|]);
               apply List.Forall_nil | reflexivity].
Qed.

Lemma run_keeps_identity_witness :
  processingQueue (processVideo sample_env "v1"
                     (fresh (sample_world sample_video always_answers))).1
  = new_ProcessingQueue.
Proof.
  apply (run_keeps_identity sample_env "v1"
           (sample_world sample_video always_answers) sample_video);
    reflexivity.
Defined.

(* ===================================================================== *)
(** * More on the media server                                           *)
(* ===================================================================== *)

Ltac stream_step :=
  cbn -[insert lookup range_start range_end createReadStream js_to_string
        Z_to_string String.app canAccess js_ge].

(** X5.  A request without a [Range] header (or with an empty one) on a
    completed item is answered 200 with the whole file, its length as
    [Content-Length] and [Accept-Ranges: bytes], and counts as a view. *)
Theorem stream_whole_file files id user w v content range :
  store w !! id = Some v ->
  _id v = id ->
  canAccess v (user_id user) (user_role user) = true ->
  status v = completed ->
  files !! filePath v = Some content ->
  reachable w ->
  range = None \/ range = Some "" ->
  (stream files id user range w).2 =
    Ok (mkResponse 200
          [("Content-Length", Z_to_string (Z.of_nat (length content)));
           ("Content-Type", mimetype v);
           ("Accept-Ranges", "bytes")]
          (body_stream content)) /\
  store (stream files id user range w).1 = <[id := set_views (views v + 1) v]> (store w).
Proof.
  intros Hv Hid Hacc Hst Hfile Hreach Hrange.
  destruct w as [st fl n i tr pq]. unfold reachable in Hreach. simpl in Hv, Hreach.
  subst id.
  unfold stream. stream_step. rewrite (Hreach n). stream_step. rewrite Hv.
  stream_step. rewrite Hacc, Hst, (bool_decide_eq_true_2 _ eq_refl).
  stream_step. rewrite Hfile.
  destruct Hrange as [-> | ->]; stream_step; rewrite (Hreach (S n)); stream_step;
    rewrite Hv; stream_step; simpl createReadStream; stream_step;
    split; reflexivity.
Qed.

Lemma stream_whole_file_witness :
  exists r, (stream sample_files "v1" alice None
               (sample_world sample_completed always_answers)).2 = Ok r /\
            res_status r = 200.
Proof.
  eexists. split.
  - apply (stream_whole_file sample_files "v1" alice
             (sample_world sample_completed always_answers) sample_completed
             (replicate 1000 Byte.x00) None); try reflexivity.
    + intros n. reflexivity.
    + now left.
  - reflexivity.
Defined.

(** X6.  Views are counted once per playback, not per request: a request
    on a completed item adds one view when it has no range (or an empty
    one) or asks exactly for [bytes=0-], and leaves the record as it is for
    every other range, whatever the answer to that range is.  Nothing but
    [views] is written. *)
Theorem stream_counts_views files id user w v content range :
  store w !! id = Some v ->
  _id v = id ->
  canAccess v (user_id user) (user_role user) = true ->
  status v = completed ->
  files !! filePath v = Some content ->
  reachable w ->
  let w' := (stream files id user range w).1 in
  (range = None \/ range = Some "" \/ range = Some "bytes=0-" ->
   store w' = <[id := set_views (views v + 1) v]> (store w)) /\
  (range <> None -> range <> Some "" -> range <> Some "bytes=0-" ->
   store w' = store w) /\
  processingQueue w' = processingQueue w.
Proof.
  intros Hv Hid Hacc Hst Hfile Hreach.
  destruct w as [st fl n i tr pq]. unfold reachable in Hreach. simpl in Hv, Hreach.
  subst id.
  unfold stream. stream_step. rewrite (Hreach n). stream_step. rewrite Hv.
  stream_step. rewrite Hacc, Hst, (bool_decide_eq_true_2 _ eq_refl).
  stream_step. rewrite Hfile. stream_step.
  destruct range as [[|c r]|].
  - stream_step. rewrite (Hreach (S n)). stream_step. rewrite Hv. stream_step.
    simpl createReadStream. stream_step.
    repeat split; auto. intros _ H. now contradict H.
  - destruct (decide (String c r = "bytes=0-")) as [E|E].
    + rewrite E. rewrite (bool_decide_eq_true_2 _ eq_refl).
      stream_step. rewrite (Hreach (S n)). stream_step. rewrite Hv. stream_step.
      destruct (js_ge _ _); stream_step.
      * repeat split; auto. intros _ _ H. now contradict H.
      * destruct (createReadStream _ _) as [file|e] eqn:Ecr; stream_step.
        -- repeat split; auto. intros _ _ H. now contradict H.
        -- destruct (bool_decide _); stream_step;
             (repeat split; auto; intros _ _ H; now contradict H).
    + rewrite (bool_decide_eq_false_2 (Some (String c r) = Some "bytes=0-"))
        by congruence.
      stream_step.
      assert (forall st' : gmap string Video,
                 Some (String c r) = None \/ Some (String c r) = Some "" \/
                 Some (String c r) = Some "bytes=0-" -> st = st') as Hno.
      { intros st' [H|[H|H]]; try discriminate H. congruence. }
      destruct (js_ge _ _); stream_step.
      * repeat split; auto.
      * destruct (createReadStream _ _) as [file|e] eqn:Ecr; stream_step.
        -- repeat split; auto.
        -- destruct (bool_decide _); stream_step; repeat split; auto.
  - stream_step. rewrite (Hreach (S n)). stream_step. rewrite Hv. stream_step.
    simpl createReadStream. stream_step.
    repeat split; auto. intros H. now contradict H.
Qed.

Lemma stream_counts_views_witness :
  store (stream sample_files "v1" alice (Some "bytes=100-199")
           (sample_world sample_completed always_answers)).1
  = store (sample_world sample_completed always_answers).
Proof.
  apply (stream_counts_views sample_files "v1" alice
           (sample_world sample_completed always_answers) sample_completed
           (replicate 1000 Byte.x00) (Some "bytes=100-199"));
    try reflexivity; try discriminate.
  intros n. reflexivity.
Defined.

(** X7.  The media server reveals nothing before access is settled and
    serves nothing before processing is complete: whatever the [Range]
    header and whatever the state of the item and of its file, a user
    without access is answered 403; a user with access to an item that is
    not completed is answered 400; and a completed item whose file is gone
    is answered 404.  An id without record is answered 404.  None of these
    requests writes to the store or counts as a view. *)
Theorem stream_refusals files id user w range :
  reachable w ->
  let r := (stream files id user range w).2 in
  let w' := (stream files id user range w).1 in
  match store w !! id with
  | None => r = Ok (json 404 false "Video not found") /\ store w' = store w
  | Some v =>
      (canAccess v (user_id user) (user_role user) = false ->
       r = Ok (json 403 false "Access denied") /\ store w' = store w) /\
      (canAccess v (user_id user) (user_role user) = true ->
       status v <> completed ->
       r = Ok (json 400 false "Video is still processing") /\ store w' = store w) /\
      (canAccess v (user_id user) (user_role user) = true ->
       status v = completed ->
       files !! filePath v = None ->
       r = Ok (json 404 false "Video file not found") /\ store w' = store w)
  end.
Proof.
  intros Hreach.
  destruct w as [st fl n i tr pq]. unfold reachable in Hreach. simpl in Hreach.
  unfold stream. stream_step. rewrite (Hreach n). stream_step.
  destruct (st !! id) as [v|] eqn:Hv; stream_step; [|auto].
  split; [|split].
  - intros ->. stream_step. auto.
  - intros -> Hs. rewrite (bool_decide_eq_false_2 _ Hs). stream_step. auto.
  - intros -> Hs Hfile. rewrite (bool_decide_eq_true_2 _ Hs), Hfile. stream_step. auto.
Qed.

Lemma stream_refusals_witness :
  (stream sample_files "v1" alice (Some "bytes=0-")
     (sample_world sample_video always_answers)).2
  = Ok (json 400 false "Video is still processing").
Proof.
  pose proof (stream_refusals sample_files "v1" alice
                (sample_world sample_video always_answers) (Some "bytes=0-")) as H.
  cbv zeta in H.
  change (store (sample_world sample_video always_answers) !! "v1")
    with (Some sample_video) in H.
  apply H.
  - intros n. reflexivity.
  - reflexivity.
  - discriminate.
Defined.

(** X8.  When the store refuses the lookup, the media server answers 404
    'Video not found' for a [CastError] (an id that is no ObjectId) and 500
    for every other error; the exception never escapes the handler and the
    store is left as it was. *)
Theorem stream_store_failure files id user w range e :
  faults w (calls w) = Some e ->
  (stream files id user range w).2 =
    Ok (if bool_decide (err_name e = "CastError")
        then json 404 false "Video not found"
        else json 500 false "Server error during streaming") /\
  store (stream files id user range w).1 = store w.
Proof.
  intros Hf. destruct w as [st fl n i tr pq]. simpl in Hf.
  unfold stream. stream_step. rewrite Hf. stream_step.
  destruct (bool_decide _); split; reflexivity.
Qed.

Lemma stream_store_failure_witness :
  (stream sample_files "v1" alice None
     (sample_world sample_completed (refuses [0%nat]))).2
  = Ok (json 500 false "Server error during streaming").
Proof.
  apply (stream_store_failure sample_files "v1" alice
           (sample_world sample_completed (refuses [0%nat])) None
           (Error "store unreachable")).
  reflexivity.
Defined.

(* ===================================================================== *)
(** * More on upload and re-submission                                   *)
(* ===================================================================== *)

(** X9.  An upload hands its id to the scheduler only after the record is
    in the store: when the store answers, the reply is 201, the new record
    is stored and its id is added to the scheduler; when the store refuses
    the save, the reply is 500, no record is stored and the scheduler is
    left alone.  The handler never throws. *)
Theorem upload_persists_before_queueing id file_mimetype file_size file_path user w :
  let w' := (upload id file_mimetype file_size file_path user w).1 in
  let video := new_Video id file_mimetype file_size file_path user in
  match faults w (calls w) with
  | None =>
      (upload id file_mimetype file_size file_path user w).2 =
        Ok (json 201 true "Video uploaded successfully. Processing started.") /\
      store w' = <[id := video]> (store w) /\
      processingQueue w' = add id (processingQueue w) /\
      trace w' = trace w ++ [Persisted video]
  | Some _ =>
      (upload id file_mimetype file_size file_path user w).2 =
        Ok (json 500 false "Server error during upload") /\
      store w' = store w /\
      processingQueue w' = processingQueue w /\
      trace w' = trace w
  end.
Proof.
  destruct w as [st fl n i tr pq]. unfold upload.
  cbn -[insert lookup new_Video add].
  destruct (fl n); cbn -[insert lookup new_Video add]; auto.
Qed.

(** X10.  A re-submission that is refused changes nothing: for an id
    without record (404), for a user who is neither the owner nor an
    administrator (403), and when the store refuses the lookup or the
    save of the reset (500), the store, the scheduler and the trace are as
    before.  The handler never throws. *)
Theorem reprocess_refusals id user w :
  let r := (reprocess id user w).2 in
  let w' := (reprocess id user w).1 in
  let unchanged :=
    store w' = store w /\ processingQueue w' = processingQueue w /\
    trace w' = trace w in
  match faults w (calls w), store w !! id with
  | Some _, _ => r = Ok (json 500 false "Server error") /\ unchanged
  | None, None => r = Ok (json 404 false "Video not found") /\ unchanged
  | None, Some v =>
      if bool_decide (user_role user = "admin") || bool_decide (owner v = user_id user)
      then match faults w (S (calls w)) with
           | Some _ => r = Ok (json 500 false "Server error") /\ unchanged
           | None =>
               r = Ok (json 200 true "Video re-processing started") /\
               store w' = <[_id v := reset_processing v]> (store w) /\
               processingQueue w' = add (_id v) (processingQueue w)
           end
      else r = Ok (json 403 false "Access denied") /\ unchanged
  end.
Proof.
  destruct w as [st fl n i tr pq]. unfold reprocess.
  cbn -[insert lookup reset_processing add].
  destruct (fl n); cbn -[insert lookup reset_processing add]; [auto|].
  destruct (st !! id) as [v|]; cbn -[insert lookup reset_processing add]; [|auto].
  destruct (bool_decide (user_role user = "admin")),
    (bool_decide (owner v = user_id user));
    cbn -[insert lookup reset_processing add]; auto.
  all: destruct (fl (S n)); cbn -[insert lookup reset_processing add]; auto.
Qed.

(* ===================================================================== *)
(** * More on the subprocess wrappers                                    *)
(* ===================================================================== *)

(** X11.  A report of ffprobe that parses but lists no video stream (an
    audio file, or no [streams] at all) gives a resolution of 0x0 and the
    codec 'unknown', while the duration and the bit rate of the container
    are kept. *)
Theorem extractMetadata_without_video_stream (report : ProbeJson) :
  match streams report with
  | Some l => Forall (fun s => codec_type s <> Some "video") l
  | None => True
  end ->
  let metadata := extractMetadata (probe_close 0 (Some report)) in
  md_width metadata = 0 /\ md_height metadata = 0 /\
  md_codec metadata = "unknown" /\
  md_duration metadata = or_zeroQ (format_duration report) /\
  md_bitrate metadata = or_zero (format_bit_rate report).
Proof.
  intros H. unfold extractMetadata. simpl.
  destruct (streams report) as [l|]; simpl; [|auto].
  assert (List.find (fun s => bool_decide (codec_type s = Some "video")) l = None)
    as ->.
  { induction l as [|s l IH]; [reflexivity|].
    apply Forall_cons in H as [Hs Hl]. simpl.
    rewrite (bool_decide_eq_false_2 _ Hs). auto. }
  simpl. auto.
Qed.

Lemma extractMetadata_without_video_stream_witness :
  md_codec (extractMetadata
              (probe_close 0
                 (Some (mkProbeJson (Some 12.5%Q) (Some 128000)
                          (Some [mkProbeStream (Some "audio") None None
                                   (Some "aac")])))))
  = "unknown".
Proof.
  apply (extractMetadata_without_video_stream
           (mkProbeJson (Some 12.5%Q) (Some 128000)
              (Some [mkProbeStream (Some "audio") None None (Some "aac")]))).
  simpl. repeat constructor. discriminate.
Defined.

(* ===================================================================== *)
(** * Reading back a well-formed range                                   *)
(* ===================================================================== *)















(* ===================================================================== *)
(** * Roles and permissions                                              *)
(* ===================================================================== *)

Lemma role_level_cases role level :
  role_level role = Some level ->
  (role = "viewer" /\ level = 1) \/ (role = "editor" /\ level = 2) \/
  (role = "admin" /\ level = 3).
Proof.
  unfold role_level, get, roleHierarchy. cbn [List.find fst snd].
  repeat case_bool_decide; cbn; intros Hlevel; simplify_eq; auto.
Qed.

(** X13.  The permission table agrees with the role hierarchy: whatever a
    role of the hierarchy is allowed, every role at or above its level is
    allowed too, for every permission name. *)
Theorem permissions_follow_hierarchy permission role1 role2 level1 level2 :
  role_level role1 = Some level1 ->
  role_level role2 = Some level2 ->
  level1 <= level2 ->
  hasPermission role1 permission = Ok true ->
  hasPermission role2 permission = Ok true.
Proof.
  intros H1 H2 Hle.
  apply role_level_cases in H1 as [[-> ->]|[[-> ->]|[-> ->]]];
    apply role_level_cases in H2 as [[-> ->]|[[-> ->]|[-> ->]]];
    try lia; try (intros; assumption).
  all: unfold hasPermission, get, permissions; cbn [List.find fst snd].
  all: repeat match goal with
              | |- context [bool_decide (?s = ?p)] =>
                  is_var p; destruct (bool_decide (s = p))
              | |- context [bool_decide (?p ∈ Object_prototype)] =>
                  destruct (bool_decide (p ∈ Object_prototype))
              end.
  all: vm_compute; congruence.
Qed.

Lemma permissions_follow_hierarchy_witness :
  hasPermission "admin" "video:upload" = Ok true.
Proof.
  apply (permissions_follow_hierarchy "video:upload" "editor" "admin" 2 3);
    try reflexivity. lia.
Defined.

(** X14.  Only editors and administrators get past the permission check of
    the upload route: a request without user is answered 401 and a user
    with any other role 403, and neither creates a record nor hands
    anything to the scheduler; for an editor or an administrator the route
    is the upload handler. *)
Theorem upload_route_guard id file_mimetype file_size file_path req_user w :
  let run := upload_route id file_mimetype file_size file_path req_user w in
  match req_user with
  | None => run = (w, Ok (json 401 false "Authentication required"))
  | Some user =>
      if bool_decide (user_role user = "editor")
         || bool_decide (user_role user = "admin")
      then run = upload id file_mimetype file_size file_path user w
      else run = (w, Ok (json 403 false "Permission denied: video:upload"))
  end.
Proof.
  destruct req_user as [user|]; [|reflexivity].
  unfold upload_route, requirePermission, get, permissions.
  cbn [List.find fst snd].
  rewrite (bool_decide_eq_true_2 ("video:upload" = "video:upload") eq_refl).
  cbn [fst snd].
  destruct (decide (user_role user = "editor")) as [E|E].
  { rewrite E. reflexivity. }
  rewrite (bool_decide_eq_false_2 _ E).
  destruct (decide (user_role user = "admin")) as [A|A].
  { rewrite A. reflexivity. }
  rewrite (bool_decide_eq_false_2 _ A).
  rewrite bool_decide_eq_false_2; [reflexivity|].
  rewrite !elem_of_cons, elem_of_nil. tauto.
Qed.

(* ===================================================================== *)
(** * Deleting and sharing                                               *)
(* ===================================================================== *)

Ltac fm_step := cbn -[insert lookup delete deleteVideoFile deleteThumbnail truthy].

Lemma delete_permitted role :
  role = "editor" \/ role = "admin" ->
  forall user, user_role user = role ->
  requirePermission "video:delete" (Some user) = Ok (next user).
Proof.
  intros Hrole user Hu. unfold requirePermission. rewrite Hu.
  destruct Hrole as [-> | ->]; reflexivity.
Qed.

(** The files after the two deletions of the handler. *)
Lemma deleteVideoFile_gone unlink path files :
  unlink path = true -> (deleteVideoFile unlink path files).1 !! path = None.
Proof.
  intros Hu. unfold deleteVideoFile.
  destruct (files !! path) eqn:E; simpl; [|assumption].
  rewrite Hu. simpl. apply lookup_delete_eq.
Qed.

Lemma deleteVideoFile_others unlink path files other :
  other <> path ->
  (deleteVideoFile unlink path files).1 !! other = files !! other.
Proof.
  intros Hne. unfold deleteVideoFile.
  destruct (files !! path); simpl; [|reflexivity].
  destruct (unlink path); simpl; [|reflexivity].
  apply lookup_delete_ne. congruence.
Qed.

Lemma deleteThumbnail_keeps unlink thumb files path :
  files !! path = None -> (deleteThumbnail unlink thumb files).1 !! path = None.
Proof.
  intros Hp. unfold deleteThumbnail.
  destruct thumb as [[|c s]|]; simpl; try assumption.
  destruct (files !! String c s); simpl; [|assumption].
  destruct (unlink (String c s)); simpl; [|assumption].
  apply lookup_delete_None. now right.
Qed.

(** The handler on a record of the user's own, up to the call that
    deletes the record. *)
Lemma delete_video_owner unlink id user w v files :
  store w !! id = Some v ->
  faults w (calls w) = None ->
  user_role user = "admin" \/ owner v = user_id user ->
  let files1 := (deleteVideoFile unlink (filePath v) files).1 in
  let files2 := if truthy (thumbnailPath v)
                then (deleteThumbnail unlink (thumbnailPath v) files1).1
                else files1 in
  delete_video unlink id user files w =
    match faults w (S (calls w)) with
    | None =>
        (files2,
         mkWorld (delete id (store w)) (faults w) (S (S (calls w))) (io w)
           (trace w) (processingQueue w),
         Ok (json 200 true "Video deleted successfully"))
    | Some _ =>
        (files2,
         mkWorld (store w) (faults w) (S (S (calls w))) (io w) (trace w)
           (processingQueue w),
         Ok (json 500 false "Server error"))
    end.
Proof.
  intros Hv Hf Hown files1 files2.
  destruct w as [st fl n i tr pq]. simpl in Hv, Hf.
  unfold delete_video. fm_step. rewrite Hf. fm_step. rewrite Hv. fm_step.
  assert (negb (bool_decide (user_role user = "admin"))
          && negb (bool_decide (owner v = user_id user)) = false) as ->.
  { destruct Hown as [H|H]; rewrite (bool_decide_eq_true_2 _ H);
      [reflexivity | apply andb_false_r]. }
  fm_step. fold files1.
  destruct (deleteVideoFile unlink (filePath v) files) as [f1 b1] eqn:E1.
  subst files1. cbn [fst] in files2. fm_step.
  destruct (truthy (thumbnailPath v)); fm_step.
  - destruct (deleteThumbnail unlink (thumbnailPath v) f1) as [f2 b2] eqn:E2.
    subst files2. cbn [fst]. fm_step.
    destruct (fl (S n)); reflexivity.
  - subst files2. destruct (fl (S n)); reflexivity.
Qed.

(** X15.  Deletion by the owner (an editor) or an administrator, when the
    store answers and the files can be unlinked: the reply is 200, the
    record is gone from the store and the media file from the file system,
    no other record is touched, and the media server answers 404 for the
    id from then on. *)
Theorem delete_route_removes id user w v files range :
  store w !! id = Some v ->
  reachable w ->
  user_role user = "admin" \/ (user_role user = "editor" /\ owner v = user_id user) ->
  let result := delete_route unlink_works id (Some user) files w in
  result.2 = Ok (json 200 true "Video deleted successfully") /\
  store result.1.2 !! id = None /\
  (forall k, k <> id -> store result.1.2 !! k = store w !! k) /\
  result.1.1 !! filePath v = None /\
  (stream result.1.1 id user range result.1.2).2 =
    Ok (json 404 false "Video not found").
Proof.
  intros Hv Hreach Hrole result.
  assert (requirePermission "video:delete" (Some user) = Ok (next user)) as Hperm.
  { destruct Hrole as [H|[H _]].
    - apply (delete_permitted "admin"); auto.
    - apply (delete_permitted "editor"); auto. }
  assert (user_role user = "admin" \/ owner v = user_id user) as Hown by tauto.
  unfold result, delete_route. rewrite Hperm.
  rewrite (delete_video_owner unlink_works id user w v files Hv (Hreach _) Hown).
  rewrite (Hreach (S (calls w))). cbn [fst snd store].
  split; [reflexivity|]. split; [apply lookup_delete_eq|].
  split; [intros k Hk; now apply lookup_delete_ne|].
  split.
  - destruct (truthy (thumbnailPath v)).
    + apply deleteThumbnail_keeps. now apply deleteVideoFile_gone.
    + now apply deleteVideoFile_gone.
  - unfold stream. cbn -[insert lookup delete]. rewrite (Hreach (S (S (calls w)))).
    cbn -[insert lookup delete]. rewrite lookup_delete_eq. reflexivity.
Qed.

Lemma delete_route_removes_witness :
  (delete_route unlink_works "v1" (Some alice) sample_files
     (sample_world sample_completed always_answers)).2
  = Ok (json 200 true "Video deleted successfully").
Proof.
  apply (delete_route_removes "v1" alice
           (sample_world sample_completed always_answers) sample_completed
           sample_files None).
  - reflexivity.
  - intros n. reflexivity.
  - right. split; reflexivity.
Defined.

(** X16.  Deletion is not atomic: the files are unlinked before the record
    is deleted, so when the store refuses that last call the reply is 500
    and the record is still there, as it was, while its media file is
    gone; the media server then answers 404 'Video file not found' for a
    completed item. *)
Theorem delete_route_not_atomic id user w v files range e :
  store w !! id = Some v ->
  faults w (calls w) = None ->
  faults w (S (calls w)) = Some e ->
  (forall n, (S (calls w) < n)%nat -> faults w n = None) ->
  user_role user = "admin" \/ (user_role user = "editor" /\ owner v = user_id user) ->
  status v = completed ->
  let result := delete_route unlink_works id (Some user) files w in
  result.2 = Ok (json 500 false "Server error") /\
  store result.1.2 = store w /\
  result.1.1 !! filePath v = None /\
  (stream result.1.1 id user range result.1.2).2 =
    Ok (json 404 false "Video file not found").
Proof.
  intros Hv Hf0 Hf1 Hlater Hrole Hst result.
  assert (requirePermission "video:delete" (Some user) = Ok (next user)) as Hperm.
  { destruct Hrole as [H|[H _]].
    - apply (delete_permitted "admin"); auto.
    - apply (delete_permitted "editor"); auto. }
  assert (user_role user = "admin" \/ owner v = user_id user) as Hown by tauto.
  assert (canAccess v (user_id user) (user_role user) = true) as Hacc.
  { unfold canAccess. destruct Hown as [H|H]; rewrite (bool_decide_eq_true_2 _ H);
      [reflexivity | now destruct (bool_decide _)]. }
  unfold result, delete_route. rewrite Hperm.
  rewrite (delete_video_owner unlink_works id user w v files Hv Hf0 Hown).
  rewrite Hf1. cbv zeta.
  set (files2 := if truthy (thumbnailPath v) then _ else _).
  assert (files2 !! filePath v = None) as Hgone.
  { unfold files2. destruct (truthy (thumbnailPath v)).
    - apply deleteThumbnail_keeps. now apply deleteVideoFile_gone.
    - now apply deleteVideoFile_gone. }
  clearbody files2. cbn [fst snd store].
  split; [reflexivity|]. split; [reflexivity|].
  split; [exact Hgone|].
  unfold stream. cbn -[insert lookup delete canAccess].
  rewrite (Hlater (S (S (calls w)))) by lia.
  cbn -[insert lookup delete canAccess]. rewrite Hv.
  cbn -[insert lookup delete canAccess].
  rewrite Hacc, Hst, (bool_decide_eq_true_2 _ eq_refl).
  cbn -[insert lookup delete canAccess].
  rewrite Hgone. reflexivity.
Qed.

Lemma delete_route_not_atomic_witness :
  (delete_route unlink_works "v1" (Some alice) sample_files
     (sample_world sample_completed (refuses [1%nat]))).2
  = Ok (json 500 false "Server error").
Proof.
  apply (delete_route_not_atomic "v1" alice
           (sample_world sample_completed (refuses [1%nat])) sample_completed
           sample_files None (Error "store unreachable")).
  - reflexivity.
  - reflexivity.
  - reflexivity.
  - intros n Hn. simpl in Hn. destruct n as [|[|n]]; [lia | lia | reflexivity].
  - right. split; reflexivity.
  - reflexivity.
Defined.

(** X17.  Deletion refused: a user that is neither editor nor
    administrator is stopped by the permission check (403, 'Permission
    denied'), and an editor who does not own the record by the ownership
    check (403, 'Access denied'); an id without record is answered 404.
    In all three cases the store and the files are untouched. *)
Theorem delete_route_refusals unlink id user w files :
  faults w (calls w) = None ->
  let result := delete_route unlink id (Some user) files w in
  (user_role user <> "editor" -> user_role user <> "admin" ->
   result = (files, w, Ok (json 403 false "Permission denied: video:delete"))) /\
  (user_role user = "editor" ->
   match store w !! id with
   | None =>
       result.2 = Ok (json 404 false "Video not found") /\
       result.1.1 = files /\ store result.1.2 = store w
   | Some v =>
       owner v <> user_id user ->
       result.2 = Ok (json 403 false "Access denied") /\
       result.1.1 = files /\ store result.1.2 = store w
   end).
Proof.
  intros Hf result. split.
  - intros E A. unfold result, delete_route, requirePermission, get, permissions.
    cbn [List.find fst snd].
    rewrite !(bool_decide_eq_false_2 ("video:upload" = "video:delete")) by discriminate.
    rewrite !(bool_decide_eq_false_2 ("video:read" = "video:delete")) by discriminate.
    rewrite !(bool_decide_eq_false_2 ("video:update" = "video:delete")) by discriminate.
    rewrite (bool_decide_eq_true_2 ("video:delete" = "video:delete") eq_refl).
    cbn [fst snd].
    rewrite bool_decide_eq_false_2; [reflexivity|].
    rewrite !elem_of_cons, elem_of_nil. tauto.
  - intros E. unfold result, delete_route.
    rewrite (delete_permitted "editor" (or_introl eq_refl) user E).
    destruct w as [st fl n i tr pq]. simpl in Hf.
    unfold delete_video. fm_step. rewrite Hf. fm_step.
    destruct (st !! id) as [v|]; fm_step; [|auto].
    intros Hown. rewrite E.
    rewrite (bool_decide_eq_false_2 ("editor" = "admin")) by discriminate.
    rewrite (bool_decide_eq_false_2 _ Hown). fm_step. auto.
Qed.

Lemma delete_route_refusals_witness :
  delete_route unlink_works "v1" (Some (mkUser "u9" "viewer")) sample_files
    (sample_world sample_completed always_answers)
  = (sample_files, sample_world sample_completed always_answers,
     Ok (json 403 false "Permission denied: video:delete")).
Proof.
  apply (delete_route_refusals unlink_works "v1" (mkUser "u9" "viewer")
           (sample_world sample_completed always_answers) sample_files);
    [reflexivity | discriminate | discriminate].
Defined.









(** X19.  Sharing refused: an empty list of ids is answered 400 before the
    store is asked anything; an id without record 404; a user who is
    neither the owner nor an administrator 403; and when the store refuses
    the save the reply is 500.  The sharing list in the store is unchanged
    in all four cases, and the handler never throws. *)
Theorem share_refusals id user userIds w :
  let result := share id user userIds w in
  (userIds = [] -> result = (w, Ok (reply (json 400 false "Validation failed")))) /\
  (userIds <> [] -> faults w (calls w) = None ->
   match store w !! id with
   | None =>
       result.2 = Ok (reply (json 404 false "Video not found")) /\
       store result.1 = store w
   | Some v =>
       (user_role user <> "admin" -> owner v <> user_id user ->
        result.2 = Ok (reply (json 403 false "Access denied")) /\
        store result.1 = store w) /\
       (user_role user = "admin" \/ owner v = user_id user ->
        forall e, faults w (S (calls w)) = Some e ->
        result.2 = Ok (reply (json 500 false "Server error")) /\
        store result.1 = store w)
   end).
Proof.
  intros result. split.
  - intros ->. reflexivity.
  - intros Hne Hf0. destruct w as [st fl n i tr pq]. simpl in Hf0.
    unfold result, share. rewrite (bool_decide_eq_false_2 _ Hne).
    cbn -[insert lookup new_Set]. rewrite Hf0. cbn -[insert lookup new_Set].
    destruct (st !! id) as [v|]; cbn -[insert lookup new_Set]; [|auto].
    split.
    + intros Ha Ho. rewrite (bool_decide_eq_false_2 _ Ha), (bool_decide_eq_false_2 _ Ho).
      cbn -[insert lookup new_Set]. auto.
    + intros Hown e He.
      assert (negb (bool_decide (user_role user = "admin"))
              && negb (bool_decide (owner v = user_id user)) = false) as ->.
      { destruct Hown as [H|H]; rewrite (bool_decide_eq_true_2 _ H);
          [reflexivity | apply andb_false_r]. }
      cbn -[insert lookup new_Set]. rewrite He. auto.
Qed.

Lemma share_refusals_witness :
  share "v1" alice [] (sample_world sample_completed always_answers)
  = (sample_world sample_completed always_answers,
     Ok (reply (json 400 false "Validation failed"))).
Proof.
  apply (share_refusals "v1" alice [] (sample_world sample_completed always_answers)).
  reflexivity.
Defined.

(* ===================================================================== *)
(** * Thumbnail and stream information                                   *)
(* ===================================================================== *)



(** X21.  The two handlers of the media server treat a failing store
    differently: where the stream handler answers 404 for a [CastError],
    the thumbnail handler answers 500 for every error, a [CastError]
    included. *)
Theorem thumbnail_store_failure files id user w e :
  faults w (calls w) = Some e ->
  (thumbnail files id user w).2 = Ok (sent (json 500 false "Server error")) /\
  store (thumbnail files id user w).1 = store w /\
  (err_name e = "CastError" ->
   forall range, (stream files id user range w).2 = Ok (json 404 false "Video not found")).
Proof.
  intros Hf. destruct w as [st fl n i tr pq]. simpl in Hf.
  unfold thumbnail, stream. cbn -[insert lookup canAccess]. rewrite Hf.
  cbn -[insert lookup canAccess].
  split; [reflexivity|]. split; [reflexivity|].
  intros Hn range. now rewrite (bool_decide_eq_true_2 _ Hn).
Qed.

Lemma thumbnail_store_failure_witness :
  (thumbnail sample_files "v1" alice
     (sample_world sample_completed (refuses [0%nat]))).2
  = Ok (sent (json 500 false "Server error")).
Proof.
  apply (thumbnail_store_failure sample_files "v1" alice
           (sample_world sample_completed (refuses [0%nat]))
           (Error "store unreachable")).
  reflexivity.
Defined.

(** X22.  The information handler loads the record without its [owner],
    and the access check reads the owner of anyone who is not an
    administrator: when the store answers, an administrator gets the data
    of the item (with the stream URL of its id), and every other user, the
    owner included, gets 500 'Server error'; an id without record is
    answered 404.  The handler never throws and never writes. *)
Theorem info_only_for_administrators id user w :
  faults w (calls w) = None ->
  let result := info id user w in
  store result.1 = store w /\
  match store w !! id with
  | None => result.2 = Ok (reply (json 404 false "Video not found"))
  | Some v =>
      if bool_decide (user_role user = "admin")
      then result.2 =
             Ok (reply_data
                   (mkStreamInfo (duration v) (resolution v) (mimetype v) (size v)
                      (status v) ("/api/stream/" +:+ _id v)))
      else result.2 = Ok (reply (json 500 false "Server error"))
  end.
Proof.
  intros Hf result. destruct w as [st fl n i tr pq]. simpl in Hf.
  unfold result, info, canAccess_selected. cbn -[insert lookup String.app].
  rewrite Hf. cbn -[insert lookup String.app].
  destruct (st !! id) as [v|]; cbn -[insert lookup String.app]; [|auto].
  destruct (bool_decide (user_role user = "admin")); cbn -[insert lookup String.app];
    auto.
Qed.

Lemma info_only_for_administrators_witness :
  (info "v1" alice (sample_world sample_completed always_answers)).2
  = Ok (reply (json 500 false "Server error")).
Proof.
  apply (info_only_for_administrators "v1" alice
           (sample_world sample_completed always_answers)).
  reflexivity.
Defined.

(* ===================================================================== *)
(** * From the pipeline to the media server                              *)
(* ===================================================================== *)

(** The record a run leaves when the store answers and the analyzer
    module loads. *)
Lemma run_completes env id w v0 :
  store w !! id = Some v0 ->
  _id v0 = id ->
  reachable w ->
  import_fault env = None ->
  exists v,
    (processVideo env id (fresh w)).2 = Ok (process_success v) /\
    store (processVideo env id (fresh w)).1 !! id = Some v /\
    faults (processVideo env id (fresh w)).1 = faults w /\
    status v = completed /\
    same_identity v0 v /\
    thumbnailPath v =
      match generateThumbnail (ffmpeg_run env) (thumbnail_file env id) with
      | Some _ => Some (thumbnail_file env id)
      | None => thumbnailPath v0
      end.
Proof.
  intros Hv Hid Hreach Himport.
  run_cases env id w v0.
  all: match goal with
       | |- context [Ok (process_success ?x) = _] => exists x
       end.
  all: rewrite ?lookup_insert_eq.
  all: repeat split; reflexivity.
Qed.

(** The whole file, for a user with access to a completed item. *)
Lemma stream_whole files id user w v content :
  store w !! id = Some v ->
  canAccess v (user_id user) (user_role user) = true ->
  status v = completed ->
  files !! filePath v = Some content ->
  reachable w ->
  (stream files id user None w).2 =
    Ok (mkResponse 200
          [("Content-Length", Z_to_string (Z.of_nat (length content)));
           ("Content-Type", mimetype v);
           ("Accept-Ranges", "bytes")]
          (body_stream content)).
Proof.
  intros Hv Hacc Hst Hfile Hreach.
  destruct w as [st fl n i tr pq]. unfold reachable in Hreach. simpl in Hv, Hreach.
  unfold stream. cbn -[insert lookup Z_to_string canAccess].
  rewrite (Hreach n). cbn -[insert lookup Z_to_string canAccess]. rewrite Hv.
  cbn -[insert lookup Z_to_string canAccess].
  rewrite Hacc, Hst, (bool_decide_eq_true_2 _ eq_refl).
  cbn -[insert lookup Z_to_string canAccess]. rewrite Hfile.
  cbn -[insert lookup Z_to_string canAccess]. rewrite (Hreach (S n)).
  cbn -[insert lookup Z_to_string canAccess]. rewrite Hv. reflexivity.
Qed.

Lemma canAccess_same_identity v0 v u role :
  same_identity v0 v -> canAccess v u role = canAccess v0 u role.
Proof.
  intros (_ & _ & _ & _ & Ho & Ha & Hp). unfold canAccess. now rewrite Ho, Ha, Hp.
Qed.

(** X23.  An item becomes playable by completing a run, and not before:
    for a user with access to an item that is not completed, whose file
    exists, the media server answers 400; after a run on which the store
    answers and the analyzer module loads (whatever ffprobe, ffmpeg and the
    analysis do), the same request is answered 200 with the whole file. *)
Theorem run_makes_playable env files id user w v0 content :
  store w !! id = Some v0 ->
  _id v0 = id ->
  status v0 <> completed ->
  canAccess v0 (user_id user) (user_role user) = true ->
  files !! filePath v0 = Some content ->
  reachable w ->
  import_fault env = None ->
  (stream files id user None w).2 = Ok (json 400 false "Video is still processing") /\
  exists r,
    (stream files id user None (processVideo env id (fresh w)).1).2 = Ok r /\
    res_status r = 200 /\ body_bytes r = Some content.
Proof.
  intros Hv Hid Hst Hacc Hfile Hreach Himport. split.
  - destruct w as [st fl n i tr pq]. unfold reachable in Hreach. simpl in Hv, Hreach.
    unfold stream. cbn -[insert lookup canAccess]. rewrite (Hreach n).
    cbn -[insert lookup canAccess]. rewrite Hv. cbn -[insert lookup canAccess].
    rewrite Hacc, (bool_decide_eq_false_2 _ Hst). reflexivity.
  - destruct (run_completes env id w v0 Hv Hid Hreach Himport)
      as (v & _ & Hv' & Hfaults & Hdone & Hsame & _).
    eexists. split.
    + apply (stream_whole files id user _ v content Hv').
      * now rewrite (canAccess_same_identity v0 v).
      * exact Hdone.
      * destruct Hsame as (_ & _ & _ & -> & _). exact Hfile.
      * intros n. rewrite Hfaults. apply Hreach.
    + split; reflexivity.
Qed.

Lemma run_makes_playable_witness :
  (stream sample_files "v1" alice None
     (sample_world sample_video always_answers)).2
  = Ok (json 400 false "Video is still processing").
Proof.
  apply (run_makes_playable sample_env sample_files "v1" alice
           (sample_world sample_video always_answers) sample_video
           (replicate 1000 Byte.x00)); try reflexivity.
  - discriminate.
  - intros n. reflexivity.
Defined.






(* ===================================================================== *)
(** * Subscriptions                                                      *)
(* ===================================================================== *)

Lemma video_room_inj a b : "video:" +:+ a = "video:" +:+ b -> a = b.
Proof. intros H. now injection H. Qed.

Lemma video_room_not_user a b : "user:" +:+ a <> "video:" +:+ b.
Proof. discriminate. Qed.

Lemma members_join socket room room' rooms x :
  x ∈ members room' (join socket room rooms) <->
  (room = room' /\ x = socket) \/ x ∈ members room' rooms.
Proof.
  unfold join, members. destruct (decide (room = room')) as [<-|Hne].
  - rewrite lookup_insert_eq. simpl. rewrite elem_of_union, elem_of_singleton.
    tauto.
  - rewrite lookup_insert_ne by assumption. tauto.
Qed.

Lemma members_leave socket room room' rooms x :
  x ∈ members room' (leave socket room rooms) <->
  x ∈ members room' rooms /\ ~ (room = room' /\ x = socket).
Proof.
  unfold leave, members. destruct (decide (room = room')) as [<-|Hne].
  - rewrite lookup_insert_eq. simpl. rewrite elem_of_difference, elem_of_singleton.
    tauto.
  - rewrite lookup_insert_ne by assumption. tauto.
Qed.

Lemma members_disconnect socket room (rooms : Rooms) x :
  x ∈ members room ((fun sockets => sockets ∖ {[socket]}) <$> rooms) <->
  x ∈ members room rooms /\ x <> socket.
Proof.
  unfold members. rewrite lookup_fmap.
  destruct (rooms !! room) as [sockets|]; simpl.
  - now rewrite elem_of_difference, elem_of_singleton.
  - rewrite elem_of_empty. tauto.
Qed.

Lemma on_wants socket videoId rooms sm before :
  (socket ∈ to_video videoId rooms <-> before = true) ->
  socket ∈ to_video videoId (on sm.1 sm.2 rooms)
  <-> wants_step socket videoId before sm = true.
Proof.
  intros Hbefore. destruct sm as [s m]. unfold to_video, wants_step in *. simpl.
  destruct m as [v|v|u|]; simpl.
  - rewrite members_join.
    case_bool_decide as Hs; [subst s|].
    + case_bool_decide as Hv; [subst v; tauto|].
      split; [intros [[H _]|H]; [apply video_room_inj in H; congruence | tauto]
             | tauto].
    + split; [intros [[_ H]|H]; [congruence | tauto] | tauto].
  - rewrite members_leave.
    case_bool_decide as Hs; [subst s|].
    + case_bool_decide as Hv; [subst v|].
      * split; [intros [_ H]; exfalso; apply H; auto | discriminate].
      * split; [tauto|]. intros H. split; [tauto|].
        intros [E _]. apply video_room_inj in E. congruence.
    + split; [tauto|]. intros H. split; [tauto|]. intros [_ E]. congruence.
  - rewrite members_join.
    assert (before = (if bool_decide (s = socket) then before else before)) as <-
      by now destruct (bool_decide _).
    split; [intros [[H _]|H]; [now apply video_room_not_user in H | tauto] | tauto].
  - rewrite members_disconnect.
    case_bool_decide as Hs; [subst s|].
    + split; [intros [_ H]; congruence | discriminate].
    + split; [tauto|]. intros H. split; [tauto | congruence].
Qed.

Lemma on_listens socket userId rooms sm before :
  (socket ∈ to_user userId rooms <-> before = true) ->
  socket ∈ to_user userId (on sm.1 sm.2 rooms)
  <-> listens_step socket userId before sm = true.
Proof.
  intros Hbefore. destruct sm as [s m]. unfold to_user, listens_step in *. simpl.
  assert (forall a b, "video:" +:+ a <> "user:" +:+ b) as Hrooms by discriminate.
  assert (forall a b, "user:" +:+ a = "user:" +:+ b -> a = b) as Hinj
    by (intros a b H; now injection H).
  destruct m as [v|v|u|]; simpl.
  - rewrite members_join.
    assert (before = (if bool_decide (s = socket) then before else before)) as <-
      by now destruct (bool_decide _).
    split; [intros [[H _]|H]; [now apply Hrooms in H | tauto] | tauto].
  - rewrite members_leave.
    assert (before = (if bool_decide (s = socket) then before else before)) as <-
      by now destruct (bool_decide _).
    split; [tauto|]. intros H. split; [tauto|]. intros [E _]. now apply Hrooms in E.
  - rewrite members_join.
    case_bool_decide as Hs; [subst s|].
    + case_bool_decide as Hu; [subst u; tauto|].
      split; [intros [[H _]|H]; [apply Hinj in H; congruence | tauto] | tauto].
    + split; [intros [[_ H]|H]; [congruence | tauto] | tauto].
  - rewrite members_disconnect.
    case_bool_decide as Hs; [subst s|].
    + split; [intros [_ H]; congruence | discriminate].
    + split; [tauto|]. intros H. split; [tauto | congruence].
Qed.

(** X26.  Who receives what: after any history of client messages, a
    socket is in the room of a video exactly when its own last word on
    that video was to subscribe and it has not disconnected since; it is
    in the room of a user exactly when it subscribed to that user and has
    not disconnected since (there is no message to leave such a room).
    Subscribing twice, unsubscribing without a subscription, what other
    sockets do, and subscriptions to other videos or users make no
    difference; an event for a room nobody joined reaches nobody. *)
Theorem subscription_decides_delivery
    (history : list (string * ClientMessage)) (socket : string) :
  (forall videoId,
     socket ∈ to_video videoId (serve history ∅)
     <-> wants socket videoId history = true) /\
  (forall userId,
     socket ∈ to_user userId (serve history ∅)
     <-> listens socket userId history = true).
Proof.
  unfold serve, wants, listens.
  assert (forall room, socket ∈ members room (∅ : Rooms) <-> false = true) as Hstart.
  { intros room. unfold members. rewrite lookup_empty. simpl.
    rewrite elem_of_empty. split; [tauto | discriminate]. }
  split.
  - intros videoId. specialize (Hstart ("video:" +:+ videoId)).
    fold (to_video videoId (∅ : Rooms)) in Hstart.
    revert Hstart. generalize (∅ : Rooms) as rooms. generalize false as before.
    induction history as [|sm history IH]; intros before rooms Hbefore; simpl.
    + exact Hbefore.
    + apply IH. now apply on_wants.
  - intros userId. specialize (Hstart ("user:" +:+ userId)).
    fold (to_user userId (∅ : Rooms)) in Hstart.
    revert Hstart. generalize (∅ : Rooms) as rooms. generalize false as before.
    induction history as [|sm history IH]; intros before rooms Hbefore; simpl.
    + exact Hbefore.
    + apply IH. now apply on_listens.
Qed.

(* ===================================================================== *)
(** * Analysis in batches                                                *)
(* ===================================================================== *)

(** [analyzeSensitivity] never throws and never touches the store; its
    result is the mock result or the pending result of the error raised,
    and all its events are progress events of the video in the stage
    [analyzing_content]. *)
Lemma analyzeSensitivity_total env videoPath videoId w :
  exists w' result tr,
    analyzeSensitivity env videoPath videoId w = (w', Ok result) /\
    store w' = store w /\ faults w' = faults w /\ calls w' = calls w /\
    io w' = io w /\ processingQueue w' = processingQueue w /\
    trace w' = trace w ++ tr /\
    persisted tr = [] /\
    Forall (fun e => ev_videoId e = videoId /\ ev_stage e = analyzing_content)
      (emitted tr) /\
    (result = generateMockAnalysis env \/
     exists phase err, analysis_fault env = Some (phase, err) /\
                       result = pending_result env err).
Proof.
  destruct w as [st fl n i tr pq].
  destruct (analysis_fault env) as [[phase err]|] eqn:Hfault.
  - destruct phase, i; run; rewrite <- ?app_assoc; cbn [app];
      (do 3 eexists; split; [reflexivity|];
       do 5 (split; [reflexivity|]);
       split; [first [reflexivity | symmetry; apply app_nil_r]|];
       split; [reflexivity|];
       split; [repeat (apply List.Forall_cons; [split; reflexivity|]);
               apply List.Forall_nil|];
       right; do 2 eexists; split; reflexivity).
  - destruct i; run; rewrite <- ?app_assoc; cbn [app];
      (do 3 eexists; split; [reflexivity|];
       do 5 (split; [reflexivity|]);
       split; [first [reflexivity | symmetry; apply app_nil_r]|];
       split; [reflexivity|];
       split; [repeat (apply List.Forall_cons; [split; reflexivity|]);
               apply List.Forall_nil|];
       now left).
Qed.

Lemma batchAnalyze_from_total videos : forall results w,
  exists w' new,
    batchAnalyze_from results videos w = (w', Ok (results ++ new)) /\
    store w' = store w /\ processingQueue w' = processingQueue w /\
    map fst new = map (fun item => item.2.1) videos /\
    Forall2 (fun item res =>
               res.2 = generateMockAnalysis item.1 \/
               exists phase err, analysis_fault item.1 = Some (phase, err) /\
                                 res.2 = pending_result item.1 err)
      videos new /\
    persisted (trace w') = persisted (trace w).
Proof.
  induction videos as [|[env [videoId videoPath]] rest IH]; intros results w.
  - exists w, []. simpl. rewrite app_nil_r. repeat split; constructor.
  - destruct (analyzeSensitivity_total env videoPath videoId w)
      as (w1 & result & tr & Hrun & Hst & _ & _ & _ & Hq & Htr & Hp & _ & Hres).
    destruct (IH (results ++ [(videoId, result)]) w1)
      as (w' & new & Hrest & Hst' & Hq' & Hids & Hall & Hp').
    exists w', ((videoId, result) :: new).
    split.
    { cbn [batchAnalyze_from]. unfold bind at 1. rewrite Hrun, Hrest.
      now rewrite <- app_assoc. }
    split; [congruence|]. split; [congruence|].
    split; [simpl; now rewrite Hids|].
    split; [constructor; [exact Hres | exact Hall]|].
    rewrite Hp', Htr. unfold persisted. rewrite omap_app.
    fold (persisted tr). rewrite Hp. apply app_nil_r.
Qed.

(** X27.  A batch analysis never throws, whatever fails in the analysis
    of any of its videos: it returns one result per video, in the order
    given and under the id given, each being the analysis result or the
    pending result of the error raised for that video; it writes nothing
    to the store. *)
Theorem batchAnalyze_total (videos : list (Env * (string * string))) (w : World) :
  exists w' results,
    batchAnalyze videos w = (w', Ok results) /\
    map fst results = map (fun item => item.2.1) videos /\
    Forall2 (fun item res =>
               res.2 = generateMockAnalysis item.1 \/
               exists phase err, analysis_fault item.1 = Some (phase, err) /\
                                 res.2 = pending_result item.1 err)
      videos results /\
    store w' = store w /\
    persisted (trace w') = persisted (trace w).
Proof.
  destruct (batchAnalyze_from_total videos [] w)
    as (w' & new & Hrun & Hst & _ & Hids & Hall & Hp).
  exists w', new. unfold batchAnalyze. rewrite Hrun. cbn [app]. auto.
Qed.

(* ===================================================================== *)
(** * Listing                                                            *)
(* ===================================================================== *)

Lemma forallb_holds_app d cs cs' :
  forallb (holds d) (cs ++ cs') = forallb (holds d) cs && forallb (holds d) cs'.
Proof. apply forallb_app. Qed.

(** What the query of [getForUser] asks of a document. *)
Lemma getForUser_query_matches userId userRole organization_ options d :
  matches (getForUser_query userId userRole organization_ options) d = true <->
  (if bool_decide (userRole = "admin")
   then organization d = organization_
   else owner (doc d) = userId \/ userId ∈ accessibleBy (doc d) \/
        (isPublic (doc d) = true /\ organization d = organization_)) /\
  (forall s, opt_status options = Some s -> status (doc d) = s) /\
  (forall c, opt_classification options = Some c ->
             classification (sensitivityResult (doc d)) = c).
Proof.
  unfold getForUser_query, matches.
  destruct (bool_decide (userRole = "admin")), (opt_status options) as [s|],
    (opt_classification options) as [c|];
    cbn [q_fields q_or app forallb existsb holds andb];
    rewrite ?andb_true_r, ?orb_false_r;
    rewrite ?andb_true_iff, ?orb_true_iff, ?andb_true_iff, ?bool_decide_eq_true;
    (split;
     [intros H; split; [tauto | split; intros x [= <-]; tauto]
     |intros (H1 & H2 & H3); try specialize (H2 _ eq_refl);
      try specialize (H3 _ eq_refl); tauto]).
Qed.

Lemma matches_canAccess userId userRole organization_ options d :
  matches (getForUser_query userId userRole organization_ options) d = true ->
  canAccess (doc d) userId userRole = true.
Proof.
  intros [H _]%getForUser_query_matches. unfold canAccess.
  destruct (bool_decide (userRole = "admin")); [reflexivity|].
  destruct H as [H|[H|[H _]]].
  - now rewrite (bool_decide_eq_true_2 _ H).
  - destruct (bool_decide (owner (doc d) = userId)); [reflexivity|].
    assert (existsb (fun id => bool_decide (id = userId)) (accessibleBy (doc d)) = true)
      as ->; [|reflexivity].
    apply existsb_exists. exists userId. split.
    + now apply list_elem_of_In.
    + now apply bool_decide_eq_true_2.
  - rewrite H. destruct (bool_decide (owner (doc d) = userId)); [reflexivity|].
    now destruct (existsb (fun id => bool_decide (id = userId)) (accessibleBy (doc d))).
Qed.

(** X28.  The listing shows a user nothing the access check would refuse:
    every document [getForUser] returns, for whatever role, page and
    filters, is one of the collection that the user can access, and it
    satisfies the status and classification asked for; an administrator is
    shown documents of the own organization only. *)
Theorem listing_shows_only_accessible
    (sort : list Document -> list Document) collection
    userId userRole organization_ options w d :
  (forall l, sort l ≡ₚ l) ->
  d ∈ listed (getForUser sort collection userId userRole organization_ options w) ->
  d ∈ collection /\
  canAccess (doc d) userId userRole = true /\
  (userRole = "admin" -> organization d = organization_) /\
  (forall s, opt_status options = Some s -> status (doc d) = s) /\
  (forall c, opt_classification options = Some c ->
             classification (sensitivityResult (doc d)) = c).
Proof.
  intros Hsort. destruct w as [st fl n i tr pq].
  unfold listed, getForUser. cbn -[insert lookup take drop getForUser_query].
  destruct (fl n); cbn -[insert lookup take drop getForUser_query];
    [intros H; now apply elem_of_nil in H|].
  destruct (fl (S n)); cbn -[insert lookup take drop getForUser_query];
    [intros H; now apply elem_of_nil in H|].
  intros Hd. apply subseteq_take, subseteq_drop in Hd. rewrite Hsort in Hd.
  apply list_elem_of_In, filter_In in Hd as [Hin Hm].
  split; [now apply list_elem_of_In|].
  split; [now apply matches_canAccess with organization_ options|].
  apply getForUser_query_matches in Hm as (Hrole & Hs & Hc).
  split; [|split; assumption].
  intros Hadmin. now rewrite (bool_decide_eq_true_2 _ Hadmin) in Hrole.
Qed.

Lemma listing_shows_only_accessible_witness :
  canAccess (doc (mkDocument sample_completed "acme")) "u1" "editor" = true.
Proof.
  apply (listing_shows_only_accessible (fun l => l)
           [mkDocument sample_completed "acme"] "u1" "editor" "acme"
           (mkOptions None None 1 20)
           (sample_world sample_completed always_answers)
           (mkDocument sample_completed "acme")).
  - intros l. reflexivity.
  - vm_compute. constructor.
Defined.

Lemma ceil_div_bounds a b :
  0 <= a -> 0 < b ->
  a <= ceil_div a b * b /\ (ceil_div a b - 1) * b < a + 1 /\ 0 <= ceil_div a b.
Proof.
  intros Ha Hb. unfold ceil_div.
  pose proof (Z.div_mod (- a) b ltac:(lia)) as Hdm.
  pose proof (Z.mod_pos_bound (- a) b Hb) as Hmod.
  nia.
Qed.

(** Cutting a list into pages of [n] and gluing them gives the list. *)
Lemma pages_concat {A} (n : nat) (k : nat) : forall l : list A,
  (0 < n)%nat -> (length l <= k * n)%nat ->
  concat (map (fun i => take n (drop (i * n) l)) (seq 0 k)) = l.
Proof.
  induction k as [|k IH]; intros l Hn Hlen.
  - simpl in *. destruct l; [reflexivity | simpl in Hlen; lia].
  - rewrite <- cons_seq, <- fmap_S_seq. cbn [map concat].
    change (map ?f (S <$> ?l)) with (map f (map S l)). rewrite map_map.
    rewrite (map_ext _ (fun i => take n (drop (i * n) (drop n l)))).
    + simpl in Hlen. rewrite IH by (try assumption; rewrite length_drop; lia).
      simpl. apply take_drop.
    + intros i. now rewrite drop_drop.
Qed.

(** X29.  The pages of a listing cut the matching documents without loss
    or overlap: for a limit of at least 1 and a store that answers, every
    page reports the number of matching documents as [total] and
    [ceil(total / limit)] as [pages], holds at most [limit] documents, and
    is empty beyond the last page; the pages 1 to [pages], one after the
    other, are exactly the matching documents in their sort order. *)
Theorem listing_pages_partition
    (sort : list Document -> list Document) collection
    userId userRole organization_ status_ classification_ limit_ w :
  (forall l, sort l ≡ₚ l) ->
  1 <= limit_ ->
  reachable w ->
  let query :=
    getForUser_query userId userRole organization_
      (mkOptions status_ classification_ 1 limit_) in
  let found := sort (List.filter (matches query) collection) in
  let count := Z.of_nat (length found) in
  let result p :=
    getForUser sort collection userId userRole organization_
      (mkOptions status_ classification_ p limit_) w in
  (forall p, 1 <= p ->
     exists l, (result p).2 = Ok l /\
               pagination l = mkPagination p limit_ count (ceil_div count limit_) /\
               Z.of_nat (length (videos l)) <= limit_ /\
               (ceil_div count limit_ < p -> videos l = [])) /\
  concat (map (fun p => listed (result (Z.of_nat p)))
            (seq 1 (Z.to_nat (ceil_div count limit_)))) = found.
Proof.
  intros Hsort Hlimit Hreach query found count result.
  destruct w as [st fl n i tr pq]. unfold reachable in Hreach. simpl in Hreach.
  assert (forall p,
            result p =
              (mkWorld st fl (S (S n)) i tr pq,
               Ok {| videos := take (Z.to_nat limit_)
                                 (drop (Z.to_nat ((p - 1) * limit_)) found);
                     pagination := mkPagination p limit_ count
                                     (ceil_div count limit_) |})) as Hresult.
  { intros p. unfold result, getForUser.
    cbn -[insert lookup take drop getForUser_query ceil_div Z.mul].
    rewrite (Hreach n). cbn -[insert lookup take drop getForUser_query ceil_div Z.mul].
    rewrite (Hreach (S n)).
    cbn -[insert lookup take drop getForUser_query ceil_div Z.mul].
    unfold count, found. rewrite (Permutation_length (Hsort _)). reflexivity. }
  assert (0 <= count) as Hcount by (unfold count; lia).
  destruct (ceil_div_bounds count limit_ Hcount ltac:(lia)) as (Hup & _ & Hpos).
  split.
  - intros p Hp. eexists. rewrite Hresult. split; [reflexivity|].
    split; [reflexivity|]. cbn [videos]. split.
    + rewrite length_take. lia.
    + intros Hbeyond. rewrite drop_ge; [apply take_nil|]. unfold count in *. nia.
  - rewrite <- fmap_S_seq.
    change (map ?f (S <$> ?l)) with (map f (map S l)). rewrite map_map.
    rewrite (map_ext _ (fun i => take (Z.to_nat limit_)
                                   (drop (i * Z.to_nat limit_) found))).
    + apply pages_concat; [lia|]. unfold count in *. nia.
    + intros j. unfold listed. rewrite Hresult. cbn [snd videos].
      do 2 f_equal. lia.
Qed.

Lemma listing_pages_partition_witness :
  exists l,
    (getForUser (fun l => l)
       [mkDocument sample_completed "acme"; mkDocument sample_failed "acme"]
       "u1" "editor" "acme" (mkOptions None None 2 1)
       (sample_world sample_completed always_answers)).2 = Ok l /\
    pagination l = mkPagination 2 1 2 2.
Proof.
  destruct (listing_pages_partition (fun l => l)
              [mkDocument sample_completed "acme"; mkDocument sample_failed "acme"]
              "u1" "editor" "acme" None None 1
              (sample_world sample_completed always_answers))
    as [Hpages _].
  - intros l. reflexivity.
  - lia.
  - intros n. reflexivity.
  - destruct (Hpages 2 ltac:(lia)) as (l & Hl & Hp & _).
    exists l. split; [exact Hl | exact Hp].
Defined.

